(* ===== verification/_CoqProject ===== *)
-Q . S2P
Prelude.v
StdString.v
CppInt.v
BtTransport.v
Preprocessor.v
Expansion.v
CppFunction.v
CppAlloc.v
CppParse.v
