(* ===== verification/Prelude.v ===== *)
(** * A verification development of [system/types/bt_transport.h]

    The program.  [src/system/types/bt_transport.h] (Android Bluetooth
    stack) is a header of three parts that interact through the C
    preprocessor and one library call:
    - the transport codes: the object-like macros [BT_TRANSPORT_AUTO] (0),
      [BT_TRANSPORT_BR_EDR] (1) and [BT_TRANSPORT_LE] (2), and the typedef
      [tBT_TRANSPORT] = [uint8_t] (lines 21-24);
    - the function-like macro [CASE_RETURN_TEXT(code)], which expands to
      [case code: return #code]: a case label built from the macro
      expansion of its argument and a string literal built from the
      argument's unexpanded spelling; it is [#undef]'d at the end of the
      header (lines 26-28 and 40);
    - [bt_transport_text], a [switch] on the promoted transport value with
      one [CASE_RETURN_TEXT] per code and a [default] branch returning
      ["UNKNOWN[" + std::to_string(transport) + "]"] (lines 30-39).
    The header is guarded by [#pragma once] (line 17).

    Files, in dependency order:
    - [Prelude] (this file): the [cpp_scope] notation [a <+> b] for
      [std::string operator+], generic string lemmas (associativity,
      lengths, cancellation of a common prefix or suffix), the [cpp] and
      [cpp_rw] hint databases and the [str_simpl] tactic.
    - [StdString]: the library call [std::to_string(int)] (the overload a
      promoted [uint8_t] selects) as the digit loop of a [%d] conversion,
      [utoa_loop], with fuel; its exact parser [stoi_exact]; the
      [IntToString] typeclass, the interface [bt_transport_text] is
      written against, and its instance [std_to_string]; on 0..255 it
      agrees with the Standard Library's printer [stdlib_decimal] (by
      evaluation), which the contract uses as its independent decimal
      representation.
    - [CppInt]: [tBT_TRANSPORT] as an abstract coqutil 8-bit word (section
      context [word : word.word 8]), integral promotion [promote] to [int]
      and a caller's conversion [to_tBT_TRANSPORT] ([int -> uint8_t],
      modulo 2^8).
    - [BtTransport]: the codes, [CASE_RETURN_TEXT] applied to a macro
      argument (label = value, text = spelling), the [switch] as
      first-match [switch_lookup], and [bt_transport_text]; the contract of
      spec.md 4.1 as the functional relation [transport_label_spec].
    - [Preprocessor]: the preprocessor state of a translation unit (macro
      table as stdpp [gmap string macro_def], [#pragma once] set as
      [gset], token output), [#define] with the redefinition rule as an
      error value, [#undef], macro expansion with rescanning and [#]
      stringification ([expand], [subst_body]), [#include] under
      [#pragma once] ([pp_include]), and the header itself as the
      directive list [bt_transport_h] of lines 17-40.
    - [Expansion]: expansion depends only on the macros of the
      identifiers it meets (a set closed under the macro table), and more
      fuel changes no result; lifted to directive runs ([pp_run_agree])
      and to [#include] in any includer.
    - [CppFunction]: what the compiler sees of lines 30-39 after
      preprocessing, as a C++ abstract syntax ([expr], [stmt],
      [function_def]) with the semantics of [switch] (jump to the matching
      [case], else [default], then fall through), [return] with its
      conversion to [std::string], and calls ([call_function]; flowing off
      the end of the function is undefined behaviour, [None]);
      [bt_transport_text_def] is the function itself.
    - [CppAlloc]: the same statements in a state-and-exception monad
      [AllocM] over an allocator interface [StringAllocator] ([max_size()],
      a stateful answer to a new string of [n] characters and to a string
      growing in place to [n]): the strings lines 28 and 36-37 build are
      new strings, each [+] of lines 36-37 appends into its temporary left
      operand ([operator+(basic_string&&, ...)]), a request may throw
      [std::length_error] or [std::bad_alloc] ([cpp_exn]) out of the call
      ([call_a]); [ord] gives each [+] its own unspecified operand order.
    - [CppParse]: the compiler's reading of the preprocessed tokens, a
      recursive-descent parser with fuel for the [typedef] and the
      [inline] function ([parse_unit]), resolving [tBT_TRANSPORT] through
      the typedefs it has read ([resolve_type]).

    What the theorems show.
    - Contract and behaviour of [bt_transport_text] (BtTransport): it
      refines [transport_label_spec] on every 8-bit value
      ([bt_transport_text_refines]); its labels parse back to the code for
      any printer meeting [IntToString] ([bt_transport_text_parse_roundtrip]),
      so it is injective; labels have 10 to 19 characters; a label names a
      transport exactly for codes 0-2; a caller's [int] is labelled as its
      value modulo 256 ([bt_transport_text_wraps]).
    - Preprocessing (Preprocessor): included first in a translation unit,
      a second include changes nothing; an include leaves every macro but
      its four names unchanged, defines the three codes and leaves
      [CASE_RETURN_TEXT] undefined; an includer with a different
      [CASE_RETURN_TEXT] gets a [Redefinition] error.
    - Any includer (Expansion): an includer whose macros avoid the
      header's identifiers includes it successfully with the three codes
      added, the header marked and exactly the header's tokens appended
      ([bt_transport_h_include_any]).
    - The C++ function (CppFunction): run under C++ semantics, the
      function of lines 30-39 computes [bt_transport_text] on every 8-bit
      value ([bt_transport_text_def_computes]).
    - The whole chain (CppParse): in any includer avoiding the header's
      identifiers, the include succeeds and the tokens it appends parse
      to [typedef uint8_t tBT_TRANSPORT] and a function which computes
      [bt_transport_text] on every 8-bit value
      ([bt_transport_h_compiles_to_spec]).
    - Allocation and exceptions (CppAlloc): under every choice of operand
      orders, [bt_transport_text] makes exactly the requests
      [bt_requests] and then returns its label
      ([bt_transport_text_alloc_requests]); with a small-string buffer of
      [c] characters and no heap it throws [std::bad_alloc] exactly for
      the labels longer than [c] ([bt_transport_text_sso_bad_alloc]),
      whereas an allocator that grants every request of at most 19
      characters never makes it throw ([bt_transport_text_no_throw]).

    Bounds and fuel.  The digit loop runs with fuel
    [S (Z.to_nat (Z.log2 n))], at least the number of decimal digits of
    [n] since [2^k <= 10^k] ([utoa_fuel_enough]).  Expansion of one text
    line uses fuel [pp_fuel] = 1024 steps, a parameter of [pp_step]; the
    header's longest line needs 65 ([bt_transport_h_fuel], the bound the
    theorems about any includer assume), and more fuel never changes a
    successful expansion ([expand_fuel_mono]).  The C++ statements need no
    fuel: a [switch] body is run by structural recursion on its statement
    list.  The parser takes one unit of fuel per nested call and
    [parse_unit] gives it twice the number of tokens plus one; the
    header's tokens parse within it (shown by evaluation).  [uint8_t] is
    exactly 8 bits wide (every Android ABI).

    Not modelled: the Bluetooth stack that consumes the labels (not in
    these sources); the layout of [std::string] (whether a request fits a
    small-string buffer or reaches the heap, the growth policy of
    [append]) is left to the allocator instance, and deallocation of the
    temporaries is not observed; the contents of [<string>] (its
    [#include] is a no-op); hide sets of the preprocessor (no macro of the
    header refers to itself, so the expansion of this header never
    depends on them).  The C++ model covers only what lines 30-39 use: no
    [break], loops, integer arithmetic, type checking or overload
    resolution beyond the [int] overload of [std::to_string] and the
    [operator+] overloads of lines 36-37.  The operand order is chosen
    per [+] expression, so two evaluations of the same expression take
    the same order (lines 36-37 evaluate each [+] once). *)

From Stdlib Require Import ZArith String Ascii List Lia.

(** ** Notation: [std::string] concatenation *)

Declare Scope cpp_scope.
Delimit Scope cpp_scope with cpp.

(** [a <+> b] is [std::string operator+]; it associates to the left like
    the C++ operator. *)
Notation "a <+> b" := (String.append a b) (at level 50, left associativity) : cpp_scope.

Open Scope cpp_scope.

(** ** Generic lemmas on strings *)

Create HintDb cpp discriminated.
Create Rewrite HintDb cpp_rw.

Lemma str_append_assoc (a b c : string) : a <+> b <+> c = a <+> (b <+> c).
Proof. induction a as [|x a IH]; simpl; [reflexivity | now rewrite IH]. Qed.

Lemma str_length_append (a b : string) :
  String.length (a <+> b) = (String.length a + String.length b)%nat.
Proof. induction a as [|x a IH]; simpl; [reflexivity | now rewrite IH]. Qed.

Lemma str_append_empty_r (a : string) : a <+> EmptyString = a.
Proof. induction a as [|x a IH]; simpl; [reflexivity | now rewrite IH]. Qed.

(** A common prefix cancels. *)
Lemma str_append_inv_head (p a b : string) : p <+> a = p <+> b -> a = b.
Proof. induction p as [|x p IH]; simpl; [auto | intros H; injection H; auto]. Qed.

(** A common suffix cancels. *)
Lemma str_append_inv_tail (s a b : string) : a <+> s = b <+> s -> a = b.
Proof.
  revert b; induction a as [|x a IH]; intros [|y b] H; simpl in *.
  - reflexivity.
  - apply (f_equal String.length) in H; simpl in H.
    rewrite str_length_append in H; lia.
  - apply (f_equal String.length) in H; simpl in H.
    rewrite str_length_append in H; lia.
  - injection H as -> H; f_equal; auto.
Qed.

#[export] Hint Rewrite str_append_assoc str_length_append str_append_empty_r : cpp_rw.
#[export] Hint Resolve str_append_inv_head str_append_inv_tail : cpp.

(** [str_simpl] normalises concatenations and lengths. *)
Ltac str_simpl := autorewrite with cpp_rw in *; simpl in *.

