(* ===== verification/StdString.v ===== *)
(** * [std::to_string] on [int]

    [bt_transport_text] (src/system/types/bt_transport.h, line 36) calls
    [std::to_string(transport)]; the [uint8_t] argument is promoted to
    [int], so the [int] overload is selected.  The C++ standard defines it
    as [sprintf("%d", val)]: a minus sign for a negative value, then the
    decimal digits of the magnitude, most significant first, without
    leading zeros.  This file models it as the digit loop of a [%d]
    conversion ([utoa_loop], with fuel), gives its parser [stoi_exact], and
    packages both in the [IntToString] interface that [BtTransport]
    relies on. *)

From Stdlib Require Import ZArith String Ascii List Lia DecimalString.
From S2P Require Import Prelude.

Open Scope Z_scope.
Open Scope cpp_scope.

(** ** The conversion *)

(** ['0' + d] for a digit [d]. *)
Definition digit_char (d : Z) : ascii := ascii_of_nat (48 + Z.to_nat d).
Arguments digit_char : simpl never.

(** The [%d] loop: [do { *--p = '0' + v % 10; v /= 10; } while (v != 0);]
    writing backwards from the end of the buffer, i.e. prepending. *)
Fixpoint utoa_loop (fuel : nat) (v : Z) (acc : string) : string :=
  match fuel with
  | O => acc
  | S f =>
      let acc' := String (digit_char (v mod 10)) acc in
      let v' := v / 10 in
      if v' =? 0 then acc' else utoa_loop f v' acc'
  end.

(** Fuel: one more than [log2 v], at least the number of decimal digits. *)
Definition utoa_fuel (v : Z) : nat := S (Z.to_nat (Z.log2 v)).

Definition utoa (v : Z) : string := utoa_loop (utoa_fuel v) v EmptyString.

(** [std::to_string(int val)]: the sign, then the digits of [|val|]. *)
Definition to_string (val : Z) : string :=
  if val <? 0 then String "-" (utoa (- val)) else utoa val.

(** ** The inverse: exact decimal parsing *)

Definition digit_val (c : ascii) : option Z :=
  let n := nat_of_ascii c in
  if andb (48 <=? n)%nat (n <=? 57)%nat then Some (Z.of_nat n - 48) else None.

Fixpoint parse_digits (s : string) (acc : Z) : option Z :=
  match s with
  | EmptyString => Some acc
  | String c s' =>
      match digit_val c with
      | Some d => parse_digits s' (acc * 10 + d)
      | None => None
      end
  end.

(** One or more digits and nothing else. *)
Definition parse_nat (s : string) : option Z :=
  match s with
  | EmptyString => None
  | _ => parse_digits s 0
  end.

(** An optional minus sign followed by one or more digits. *)
Definition stoi_exact (s : string) : option Z :=
  match s with
  | String c s' => if Ascii.eqb c "-" then option_map Z.opp (parse_nat s') else parse_nat s
  | EmptyString => None
  end.

(** [true] when the string has no character [c]. *)
Fixpoint str_free_of (c : ascii) (s : string) : bool :=
  match s with
  | EmptyString => true
  | String x s' => negb (Ascii.eqb x c) && str_free_of c s'
  end.

(** ** The interface a client of [std::to_string] relies on *)

(** A printer of integers with an inverse, whose output never contains a
    closing bracket (so that it can be framed by ["[" ... "]"]). *)
Class IntToString := {
  int_to_string : Z -> string;
  int_of_string : string -> option Z;
  int_of_to_string : forall z, int_of_string (int_to_string z) = Some z;
  int_to_string_no_bracket : forall z, str_free_of "]"%char (int_to_string z) = true
}.

(** ** Lemmas on digits *)

(** Case analysis on a decimal digit [d] with [0 <= d < 10]. *)
Ltac destruct_digit d :=
  let Hc := fresh "Hc" in
  assert (d = 0 \/ d = 1 \/ d = 2 \/ d = 3 \/ d = 4 \/ d = 5 \/ d = 6 \/
          d = 7 \/ d = 8 \/ d = 9) as Hc by lia;
  repeat destruct Hc as [Hc | Hc]; subst d.

Lemma digit_val_char (d : Z) : 0 <= d < 10 -> digit_val (digit_char d) = Some d.
Proof. intros Hd; destruct_digit d; reflexivity. Qed.

Lemma digit_char_not_minus (d : Z) : 0 <= d < 10 -> digit_char d <> "-"%char.
Proof. intros Hd; destruct_digit d; discriminate. Qed.

Lemma digit_char_not_bracket (d : Z) : 0 <= d < 10 -> Ascii.eqb (digit_char d) "]" = false.
Proof. intros Hd; destruct_digit d; reflexivity. Qed.

#[export] Hint Resolve digit_val_char digit_char_not_minus digit_char_not_bracket : cpp.

(** ** The digit loop *)

Section DigitLoop.
Local Open Scope Z_scope.

(** Unfold one step of the loop and of the string functions, and nothing
    else ([simpl] would also unfold [Z.div] and [Z.modulo]). *)
Local Ltac step := cbn [utoa_loop parse_digits str_free_of String.length] in *.

(** The loop's invariant: parsing what it wrote so far, starting from 0,
    gives back the value it started from (followed by [acc]). *)
Lemma utoa_loop_parse (fuel : nat) (v : Z) (acc : string) :
  0 <= v < 10 ^ Z.of_nat fuel ->
  parse_digits (utoa_loop fuel v acc) 0 = parse_digits acc v.
Proof.
  revert v acc; induction fuel as [|f IH]; intros v acc Hv; step.
  - replace v with 0 by lia; reflexivity.
  - rewrite Nat2Z.inj_succ, Z.pow_succ_r in Hv by lia.
    pose proof (Z.mod_pos_bound v 10 ltac:(lia)) as Hm.
    pose proof (Z.div_mod v 10 ltac:(lia)) as Hdm.
    destruct (Z.eqb_spec (v / 10) 0) as [H0 | H0]; step.
    + rewrite digit_val_char by lia. f_equal. lia.
    + rewrite IH by (split; [apply Z.div_pos | apply Z.div_lt_upper_bound]; lia).
      step. rewrite digit_val_char by lia. f_equal. lia.
Qed.

(** [2 ^ k <= 10 ^ k]: fuel counted in bits bounds fuel counted in digits. *)
Lemma pow2_le_pow10 (k : Z) : 0 <= k -> 2 ^ k <= 10 ^ k.
Proof. intros Hk; apply Z.pow_le_mono_l; lia. Qed.

(** Termination: the fuel [utoa_fuel v] covers every digit of [v]. *)
Lemma utoa_fuel_enough (v : Z) : 0 <= v -> v < 10 ^ Z.of_nat (utoa_fuel v).
Proof.
  intros Hv; unfold utoa_fuel.
  destruct (Z.eq_dec v 0) as [-> | Hne]; [reflexivity |].
  pose proof (Z.log2_spec v ltac:(lia)) as [_ Hlt].
  pose proof (Z.log2_nonneg v).
  rewrite Nat2Z.inj_succ, Z2Nat.id by lia.
  pose proof (pow2_le_pow10 (Z.succ (Z.log2 v)) ltac:(lia)); lia.
Qed.

(** The first character written is a digit. *)
Lemma utoa_loop_head (f : nat) (v : Z) (acc : string) :
  0 <= v ->
  exists d s, 0 <= d < 10 /\ utoa_loop (S f) v acc = String (digit_char d) s.
Proof.
  revert v acc; induction f as [|f IH]; intros v acc Hv; step.
  - destruct (v / 10 =? 0); eexists _, _; split; [apply Z.mod_pos_bound; lia | reflexivity
                                               | apply Z.mod_pos_bound; lia | reflexivity].
  - destruct (Z.eqb_spec (v / 10) 0) as [H0 | H0].
    + eexists _, _; split; [apply Z.mod_pos_bound; lia | reflexivity].
    + apply IH. apply Z.div_pos; lia.
Qed.

(** No closing bracket is ever written. *)
Lemma utoa_loop_no_bracket (fuel : nat) (v : Z) (acc : string) :
  0 <= v -> str_free_of "]"%char acc = true ->
  str_free_of "]"%char (utoa_loop fuel v acc) = true.
Proof.
  revert v acc; induction fuel as [|f IH]; intros v acc Hv Hacc; step; [exact Hacc |].
  assert (Hd : str_free_of "]"%char (String (digit_char (v mod 10)) acc) = true).
  { step. rewrite digit_char_not_bracket by (apply Z.mod_pos_bound; lia). exact Hacc. }
  destruct (v / 10 =? 0); [exact Hd |]. apply IH; [apply Z.div_pos; lia | exact Hd].
Qed.

(** Lengths: a value below [10 ^ k] (k >= 1) takes between 1 and [k]
    characters. *)
Lemma utoa_loop_length (fuel : nat) (k : Z) (v : Z) (acc : string) :
  1 <= k -> 0 <= v < 10 ^ k ->
  (String.length acc <= String.length (utoa_loop fuel v acc) <=
   Z.to_nat k + String.length acc)%nat.
Proof.
  revert k v acc; induction fuel as [|f IH]; intros k v acc Hk Hv; step; [lia |].
  destruct (Z.eqb_spec (v / 10) 0) as [H0 | H0]; step; [lia |].
  assert (Hk2 : 2 <= k).
  { destruct (Z.eq_dec k 1) as [-> | ]; [|lia].
    exfalso; apply H0, Z.div_small; lia. }
  specialize (IH (k - 1) (v / 10) (String (digit_char (v mod 10)) acc)).
  step.
  assert (Hq : 0 <= v / 10 < 10 ^ (k - 1)).
  { split; [apply Z.div_pos; lia|]. apply Z.div_lt_upper_bound; [lia|].
    rewrite <- Z.pow_succ_r by lia. now replace (Z.succ (k - 1)) with k by lia. }
  specialize (IH ltac:(lia) Hq). lia.
Qed.
End DigitLoop.

(** ** [utoa] and [to_string] *)

Lemma utoa_head (v : Z) :
  0 <= v -> exists d s, 0 <= d < 10 /\ utoa v = String (digit_char d) s.
Proof. intros Hv; unfold utoa, utoa_fuel; now apply utoa_loop_head. Qed.

Lemma utoa_parse (v : Z) : 0 <= v -> parse_nat (utoa v) = Some v.
Proof.
  intros Hv. destruct (utoa_head v Hv) as (d & s & Hd & Heq).
  rewrite Heq; cbn [parse_nat]; rewrite <- Heq.
  unfold utoa; rewrite utoa_loop_parse by (split; [lia | now apply utoa_fuel_enough]).
  reflexivity.
Qed.

Lemma stoi_exact_to_string (z : Z) : stoi_exact (to_string z) = Some z.
Proof.
  unfold to_string. destruct (Z.ltb_spec z 0) as [Hneg | Hpos].
  - cbn [stoi_exact]. rewrite Ascii.eqb_refl, utoa_parse by lia.
    cbn [option_map]; f_equal; lia.
  - destruct (utoa_head z Hpos) as (d & s & Hd & Heq).
    rewrite <- (utoa_parse z Hpos), Heq. cbn [stoi_exact].
    destruct (Ascii.eqb_spec (digit_char d) "-") as [E | _]; [|reflexivity].
    exfalso; exact (digit_char_not_minus d Hd E).
Qed.

Lemma to_string_no_bracket (z : Z) : str_free_of "]"%char (to_string z) = true.
Proof.
  unfold to_string, utoa; destruct (z <? 0) eqn:Hz; [cbn [str_free_of Ascii.eqb negb andb] |];
    apply utoa_loop_no_bracket; reflexivity || lia.
Qed.

(** [std::to_string] implements the interface. *)
#[export] Instance std_to_string : IntToString := {|
  int_to_string := to_string;
  int_of_string := stoi_exact;
  int_of_to_string := stoi_exact_to_string;
  int_to_string_no_bracket := to_string_no_bracket
|}.

(** A promoted [uint8_t] prints as one to three digits. *)
Lemma to_string_length_bound (v : Z) :
  0 <= v < 256 -> (1 <= String.length (to_string v) <= 3)%nat.
Proof.
  intros Hv. unfold to_string. replace (v <? 0) with false by (symmetry; apply Z.ltb_ge; lia).
  destruct (utoa_head v (proj1 Hv)) as (d & s & _ & Heq).
  pose proof (utoa_loop_length (utoa_fuel v) 3 v EmptyString ltac:(lia) ltac:(simpl; lia)) as H.
  fold (utoa v) in H. rewrite Heq in *. cbn [String.length] in *. lia.
Qed.

(** ** Agreement with the Standard Library's decimal printer *)

(** The Standard Library's independent printer: [Z.to_int] to a decimal
    numeral, then [NilZero.string_of_int]. *)
Definition stdlib_decimal (z : Z) : string := NilZero.string_of_int (Z.to_int z).

(** The values a promoted [uint8_t] can take, as a list. *)
Definition uint8_values : list Z := map Z.of_nat (seq 0 256).

Lemma in_uint8_values (v : Z) : 0 <= v < 256 -> In v uint8_values.
Proof.
  intros Hv. unfold uint8_values. apply in_map_iff. exists (Z.to_nat v).
  split; [apply Z2Nat.id; lia | apply in_seq; lia].
Qed.

(** On every promoted [uint8_t], [std::to_string] prints what the Standard
    Library's decimal printer prints (checked on all 256 values). *)
Lemma to_string_eq_stdlib_decimal (v : Z) :
  0 <= v < 256 -> to_string v = stdlib_decimal v.
Proof.
  intros Hv.
  assert (Hall : forallb (fun n => String.eqb (to_string n) (stdlib_decimal n)) uint8_values = true)
    by (vm_compute; reflexivity).
  rewrite forallb_forall in Hall. apply String.eqb_eq, Hall, in_uint8_values, Hv.
Qed.

