(* ===== verification/CppInt.v ===== *)
(** * The integer types of [bt_transport.h]

    [typedef uint8_t tBT_TRANSPORT;] (line 24).  A [tBT_TRANSPORT] is an
    8-bit unsigned machine word, modelled in the bedrock2 style as an
    abstract coqutil [word.word 8] given as section context, instantiated
    with [Naive.word8] where a witness computes.

    Two conversions of the C++ language act on it in the header:
    - integral promotion to [int] ([conv.prom]) when it is the condition of
      [switch (transport)] (line 31) and when it is passed to
      [std::to_string] (line 36), which selects the [int] overload;
    - the implicit integral conversion of a caller's [int] to [uint8_t]
      ([conv.integral]: the value modulo 2^8) when a caller binds a wider
      value to the [const tBT_TRANSPORT&] parameter (line 30). *)

From Stdlib Require Import ZArith Lia.
From coqutil Require Import Word.Interface Word.Properties.
From S2P Require Import Prelude.

Open Scope Z_scope.

Section Uint8.
Context {word : word.word 8} {word_ok : word.ok word}.

(** [typedef uint8_t tBT_TRANSPORT;] *)
Definition tBT_TRANSPORT : Type := word.

(** Integral promotion [uint8_t -> int]: the value is kept. *)
Definition promote (t : tBT_TRANSPORT) : Z := word.unsigned t.

(** Implicit conversion [int -> uint8_t] at a call site: modulo 2^8. *)
Definition to_tBT_TRANSPORT (i : Z) : tBT_TRANSPORT := word.of_Z i.

Lemma promote_range (t : tBT_TRANSPORT) : 0 <= promote t < 256.
Proof. unfold promote. pose proof (word.unsigned_range t) as H. exact H. Qed.

Lemma promote_to_tBT_TRANSPORT (i : Z) : promote (to_tBT_TRANSPORT i) = i mod 256.
Proof. unfold promote, to_tBT_TRANSPORT. rewrite word.unsigned_of_Z. reflexivity. Qed.

Lemma to_tBT_TRANSPORT_promote (t : tBT_TRANSPORT) : to_tBT_TRANSPORT (promote t) = t.
Proof. apply word.of_Z_unsigned. Qed.

Lemma promote_inj (t1 t2 : tBT_TRANSPORT) : promote t1 = promote t2 -> t1 = t2.
Proof. apply word.unsigned_inj. Qed.

End Uint8.

#[export] Hint Resolve promote_range promote_inj : cpp.
#[export] Hint Rewrite @promote_to_tBT_TRANSPORT @to_tBT_TRANSPORT_promote : cpp_rw.
