(* ===== verification/BtTransport.v ===== *)
(** * [bt_transport_text] and the transport codes

    Lines 21-39 of src/system/types/bt_transport.h after preprocessing:
    the three transport codes, the [CASE_RETURN_TEXT] macro applied to a
    code, the [switch] statement and [bt_transport_text].  The function is
    written against the [IntToString] interface of [StdString] (the call
    [std::to_string(transport)]) and an abstract 8-bit word of [CppInt]
    (the [tBT_TRANSPORT] parameter).

    The abstract contract of spec.md 4.1 is the relation
    [transport_label_spec]; [bt_transport_text_refines] shows that the
    function implements it; the relation is functional
    ([transport_label_spec_functional]), so it fixes every label. *)

From Stdlib Require Import ZArith String Ascii List Lia.
From coqutil Require Import Word.Interface Word.Properties Word.Naive.
From S2P Require Import Prelude StdString CppInt.
Import ListNotations.

Open Scope string_scope.
Open Scope Z_scope.
Open Scope cpp_scope.

(** ** The transport codes (lines 21-23) *)

Definition BT_TRANSPORT_AUTO : Z := 0.
Definition BT_TRANSPORT_BR_EDR : Z := 1.
Definition BT_TRANSPORT_LE : Z := 2.

(** An object-like macro given as a macro argument: its spelling (what
    [#] turns into a string literal) and its replacement (what the
    argument expands to). *)
Record object_macro := { macro_name : string; macro_value : Z }.

Definition BT_TRANSPORT_AUTO_macro : object_macro :=
  {| macro_name := "BT_TRANSPORT_AUTO"; macro_value := BT_TRANSPORT_AUTO |}.
Definition BT_TRANSPORT_BR_EDR_macro : object_macro :=
  {| macro_name := "BT_TRANSPORT_BR_EDR"; macro_value := BT_TRANSPORT_BR_EDR |}.
Definition BT_TRANSPORT_LE_macro : object_macro :=
  {| macro_name := "BT_TRANSPORT_LE"; macro_value := BT_TRANSPORT_LE |}.

(** ** The switch statement *)

(** [case label: return "text";] *)
Record switch_case := { case_label : Z; case_text : string }.

(** [#define CASE_RETURN_TEXT(code) case code: return #code] (lines 26-28):
    the label is the expansion of the argument, the returned literal is
    its spelling. *)
Definition CASE_RETURN_TEXT (code : object_macro) : switch_case :=
  {| case_label := macro_value code; case_text := macro_name code |}.

(** Control reaches the case whose label equals the condition; [None]
    sends it to [default]. *)
Fixpoint switch_lookup (cases : list switch_case) (cond : Z) : option string :=
  match cases with
  | [] => None
  | c :: rest => if case_label c =? cond then Some (case_text c) else switch_lookup rest cond
  end.

(** Lines 32-34. *)
Definition bt_transport_text_cases : list switch_case :=
  [CASE_RETURN_TEXT BT_TRANSPORT_AUTO_macro;
   CASE_RETURN_TEXT BT_TRANSPORT_BR_EDR_macro;
   CASE_RETURN_TEXT BT_TRANSPORT_LE_macro].

Section Text.
Context {word : word.word 8} {word_ok : word.ok word} {its : IntToString}.

(** [inline std::string bt_transport_text(const tBT_TRANSPORT& transport)]
    (lines 30-39). *)
Definition bt_transport_text (transport : tBT_TRANSPORT) : string :=
  match switch_lookup bt_transport_text_cases (promote transport) with
  | Some text => text
  | None => "UNKNOWN[" <+> int_to_string (promote transport) <+> "]"
  end.
End Text.

(** ** The contract of spec.md 4.1 *)

(** A recognised code gets its symbolic name; any other 8-bit value gets
    [UNKNOWN[<decimal>]], the decimal representation being the Standard
    Library's. *)
Inductive transport_label_spec : Z -> string -> Prop :=
| label_auto : transport_label_spec 0 "BT_TRANSPORT_AUTO"
| label_br_edr : transport_label_spec 1 "BT_TRANSPORT_BR_EDR"
| label_le : transport_label_spec 2 "BT_TRANSPORT_LE"
| label_unknown (v : Z) :
    3 <= v <= 255 -> transport_label_spec v ("UNKNOWN[" <+> stdlib_decimal v <+> "]").

(** ** An inverse of the labels *)

Fixpoint strip_prefix (p s : string) : option string :=
  match p, s with
  | EmptyString, _ => Some s
  | String x p', String y s' => if Ascii.eqb x y then strip_prefix p' s' else None
  | String _ _, EmptyString => None
  end.

(** The text before a final [']'], which must be the last character. *)
Fixpoint take_until_bracket (s : string) : option string :=
  match s with
  | EmptyString => None
  | String c s' =>
      if Ascii.eqb c "]"
      then match s' with EmptyString => Some EmptyString | _ => None end
      else option_map (String c) (take_until_bracket s')
  end.

Definition parse_transport_text `{IntToString} (s : string) : option Z :=
  if String.eqb s "BT_TRANSPORT_AUTO" then Some BT_TRANSPORT_AUTO
  else if String.eqb s "BT_TRANSPORT_BR_EDR" then Some BT_TRANSPORT_BR_EDR
  else if String.eqb s "BT_TRANSPORT_LE" then Some BT_TRANSPORT_LE
  else match strip_prefix "UNKNOWN[" s with
       | Some rest =>
           match take_until_bracket rest with
           | Some digits => int_of_string digits
           | None => None
           end
       | None => None
       end.

(** ** Lemmas on the switch and on the label inverse *)

(** The switch of lines 31-38 on a promoted value. *)
Lemma bt_transport_text_cases_lookup (v : Z) :
  switch_lookup bt_transport_text_cases v =
  if v =? BT_TRANSPORT_AUTO then Some "BT_TRANSPORT_AUTO"
  else if v =? BT_TRANSPORT_BR_EDR then Some "BT_TRANSPORT_BR_EDR"
  else if v =? BT_TRANSPORT_LE then Some "BT_TRANSPORT_LE"
  else None.
Proof. cbn [switch_lookup bt_transport_text_cases CASE_RETURN_TEXT case_label case_text
            macro_value macro_name BT_TRANSPORT_AUTO_macro BT_TRANSPORT_BR_EDR_macro
            BT_TRANSPORT_LE_macro]. now rewrite !(Z.eqb_sym _ v). Qed.

Lemma take_until_bracket_app (s : string) :
  str_free_of "]"%char s = true -> take_until_bracket (s <+> "]") = Some s.
Proof.
  induction s as [|c s IH]; cbn [str_free_of take_until_bracket String.append];
    [reflexivity |].
  intros H. apply andb_prop in H as [Hc Hs]. apply Bool.negb_true_iff in Hc.
  rewrite Hc, IH by exact Hs. reflexivity.
Qed.

(** The fallback label is never one of the three names (it starts with
    ['U'], they start with ['B']), and it parses back to its value. *)
Lemma parse_unknown_label `{IntToString} (z : Z) :
  parse_transport_text ("UNKNOWN[" <+> int_to_string z <+> "]") = Some z.
Proof.
  rewrite str_append_assoc.
  remember (int_to_string z) as digits eqn:Hd.
  unfold parse_transport_text; cbn.
  rewrite take_until_bracket_app by (subst; apply int_to_string_no_bracket).
  subst; apply int_of_to_string.
Qed.


(** Case analysis on the switch of [bt_transport_text]: in the three
    named branches the promoted value is replaced by the code. *)
Ltac destruct_transport v :=
  destruct (Z.eqb_spec v BT_TRANSPORT_AUTO) as [Hauto | Hauto];
  [rewrite ?Hauto |
   destruct (Z.eqb_spec v BT_TRANSPORT_BR_EDR) as [Hbr | Hbr];
   [rewrite ?Hbr |
    destruct (Z.eqb_spec v BT_TRANSPORT_LE) as [Hle | Hle]; [rewrite ?Hle |]]].

Section Properties.
Context {word : word.word 8} {word_ok : word.ok word}.

Section AnyPrinter.
Context {its : IntToString}.

Lemma bt_transport_text_parse (t : tBT_TRANSPORT) :
  parse_transport_text (bt_transport_text t) = Some (promote t).
Proof.
  unfold bt_transport_text. rewrite bt_transport_text_cases_lookup.
  destruct_transport (promote t);
    [reflexivity.. | apply parse_unknown_label].
Qed.

(** C4: with any printer meeting the [IntToString] interface, every
    label of [bt_transport_text] parses back to the promoted transport
    value (the names to their codes, [UNKNOWN[n]] to [n]). *)
Theorem bt_transport_text_parse_roundtrip (t : tBT_TRANSPORT) :
  parse_transport_text (bt_transport_text t) = Some (promote t).
Proof. apply bt_transport_text_parse. Qed.

(** C5: [bt_transport_text] is injective: two transports with the same
    label are the same 8-bit value. *)
Theorem bt_transport_text_inj (t1 t2 : tBT_TRANSPORT) :
  bt_transport_text t1 = bt_transport_text t2 -> t1 = t2.
Proof.
  intros H. apply promote_inj.
  apply (f_equal parse_transport_text) in H.
  rewrite !bt_transport_text_parse in H. congruence.
Qed.

(** C12: a label starts with [BT_TRANSPORT_] exactly when the code is
    one of the three defined ones ([promote t <= BT_TRANSPORT_LE]). *)
Theorem bt_transport_text_named_iff (t : tBT_TRANSPORT) :
  String.prefix "BT_TRANSPORT_" (bt_transport_text t) = (promote t <=? BT_TRANSPORT_LE).
Proof.
  pose proof (promote_range t).
  unfold bt_transport_text. rewrite bt_transport_text_cases_lookup.
  destruct_transport (promote t); [reflexivity.. |].
  rewrite str_append_assoc. remember (int_to_string (promote t) <+> "]") as rest.
  cbn. symmetry. apply Z.leb_gt. unfold BT_TRANSPORT_AUTO, BT_TRANSPORT_BR_EDR,
    BT_TRANSPORT_LE in *. lia.
Qed.
End AnyPrinter.
End Properties.

(** ** [bt_transport_text] with [std::to_string] *)

Section StdPrinter.
Context {word : word.word 8} {word_ok : word.ok word}.

(** The [default] branch, for a promoted value above the three codes. *)
Lemma bt_transport_text_default (t : tBT_TRANSPORT) :
  3 <= promote t -> bt_transport_text t = "UNKNOWN[" <+> to_string (promote t) <+> "]".
Proof.
  intros H. unfold bt_transport_text. rewrite bt_transport_text_cases_lookup.
  destruct_transport (promote t); unfold BT_TRANSPORT_AUTO, BT_TRANSPORT_BR_EDR,
    BT_TRANSPORT_LE in *; [lia.. | reflexivity].
Qed.

Lemma bt_transport_text_meets_spec (t : tBT_TRANSPORT) :
  transport_label_spec (promote t) (bt_transport_text t).
Proof.
  pose proof (promote_range t) as Hr.
  destruct (Z.le_gt_cases 3 (promote t)) as [H3 | H3].
  - rewrite bt_transport_text_default by exact H3.
    rewrite to_string_eq_stdlib_decimal by lia. constructor; lia.
  - unfold bt_transport_text. rewrite bt_transport_text_cases_lookup.
    destruct_transport (promote t); [constructor.. |].
    unfold BT_TRANSPORT_AUTO, BT_TRANSPORT_BR_EDR, BT_TRANSPORT_LE in *; lia.
Qed.

(** C1: [bt_transport_text] implements the contract of spec.md 4.1 on
    every 8-bit value: 0, 1, 2 give [BT_TRANSPORT_AUTO],
    [BT_TRANSPORT_BR_EDR], [BT_TRANSPORT_LE]; any other value [v] gives
    [UNKNOWN[v]] with [v] in decimal. *)
Theorem bt_transport_text_refines (t : tBT_TRANSPORT) :
  transport_label_spec (promote t) (bt_transport_text t).
Proof. apply bt_transport_text_meets_spec. Qed.

(** C11: every label is 10 to 19 characters long (never empty). *)
Theorem bt_transport_text_length (t : tBT_TRANSPORT) :
  (10 <= String.length (bt_transport_text t) <= 19)%nat.
Proof.
  pose proof (promote_range t) as Hr.
  destruct (Z.le_gt_cases 3 (promote t)) as [H3 | H3].
  - rewrite bt_transport_text_default by exact H3. str_simpl.
    pose proof (to_string_length_bound (promote t) Hr); lia.
  - unfold bt_transport_text. rewrite bt_transport_text_cases_lookup.
    destruct_transport (promote t); [cbn; lia.. |].
    unfold BT_TRANSPORT_AUTO, BT_TRANSPORT_BR_EDR, BT_TRANSPORT_LE in *; lia.
Qed.

(** C7: a caller's [int] [i] is converted to [uint8_t] before the switch:
    the label is the one the contract gives to [i mod 256]. *)
Theorem bt_transport_text_wraps (i : Z) :
  transport_label_spec (i mod 256) (bt_transport_text (to_tBT_TRANSPORT i)).
Proof. rewrite <- (promote_to_tBT_TRANSPORT i). apply bt_transport_text_meets_spec. Qed.

End StdPrinter.

(** The contract determines the label: it is a function of the code. *)
Lemma transport_label_spec_functional (v : Z) (s1 s2 : string) :
  transport_label_spec v s1 -> transport_label_spec v s2 -> s1 = s2.
Proof. intros H1 H2; inversion H1; inversion H2; subst; congruence || lia. Qed.

(** ** Witnesses, on the concrete 8-bit words [Naive.word8] *)

Lemma bt_transport_text_refines_witness :
  transport_label_spec (promote (word.of_Z 7 : Naive.word8)) (bt_transport_text (word.of_Z 7 : Naive.word8)).
Proof. exact (bt_transport_text_refines (word.of_Z 7)). Defined.

Lemma bt_transport_text_parse_roundtrip_witness :
  parse_transport_text (bt_transport_text (word.of_Z 200 : Naive.word8)) =
  Some (promote (word.of_Z 200 : Naive.word8)).
Proof. exact (bt_transport_text_parse_roundtrip (word.of_Z 200)). Defined.

Lemma bt_transport_text_inj_witness :
  bt_transport_text (word.of_Z 2 : Naive.word8) = bt_transport_text (word.of_Z 2 : Naive.word8) /\
  (word.of_Z 2 : Naive.word8) = word.of_Z 2.
Proof. split; [reflexivity | apply bt_transport_text_inj; reflexivity]. Defined.

Lemma bt_transport_text_wraps_witness :
  transport_label_spec (258 mod 256) (bt_transport_text (to_tBT_TRANSPORT (word := Naive.word8) 258)).
Proof. exact (bt_transport_text_wraps 258). Defined.

Lemma bt_transport_text_length_witness :
  (10 <= String.length (bt_transport_text (word.of_Z 255 : Naive.word8)) <= 19)%nat.
Proof. exact (bt_transport_text_length (word.of_Z 255)). Defined.

Lemma bt_transport_text_named_iff_witness :
  String.prefix "BT_TRANSPORT_" (bt_transport_text (word.of_Z 1 : Naive.word8)) =
  (promote (word.of_Z 1 : Naive.word8) <=? BT_TRANSPORT_LE).
Proof. exact (bt_transport_text_named_iff (word.of_Z 1)). Defined.
