(* ===== verification/Preprocessor.v ===== *)
(** * Preprocessing [bt_transport.h]

    The header acts on its includer through the preprocessor: lines 17-28
    and 40 are directives, and [CASE_RETURN_TEXT] is expanded inside the
    body of [bt_transport_text] (lines 32-34).  This file models the
    preprocessor state of a translation unit (the macro table, the files
    marked by [#pragma once], the token output) and its operations
    ([#pragma once], [#define], [#undef], macro expansion of a text line,
    [#include] of a header), and the header itself as a list of
    directives.

    The macro table is a stdpp [gmap string macro_def].  Errors
    ([pp_error]) are values of a sum type threaded by a small error monad.
    Expansion rescans its output and uses fuel; it has no "hide sets", so
    a self-referential macro runs out of fuel instead of stopping (no macro
    of this header refers to itself). *)

From stdpp Require Import base gmap strings.
From Stdlib Require Import ZArith String Ascii List.
From S2P Require Import Prelude StdString BtTransport.
Import ListNotations.

Open Scope string_scope.
Open Scope list_scope.

(** ** Tokens and macro definitions *)

Inductive pp_token :=
| PIdent (name : string)    (* identifiers, keywords included *)
| PNumber (value : Z)       (* an integer literal *)
| PString (text : string)   (* a string literal, without its quotes *)
| PPunct (p : string).      (* a punctuator *)

#[export] Instance pp_token_eq_dec : EqDecision pp_token.
Proof. solve_decision. Defined.

(** A token of a function-like macro's replacement list. *)
Inductive body_token :=
| BTok (t : pp_token)           (* copied *)
| BParam (param : string)       (* replaced by the macro-expanded argument *)
| BStringize (param : string).  (* [#param]: the argument's spelling *)

#[export] Instance body_token_eq_dec : EqDecision body_token.
Proof. solve_decision. Defined.

Inductive macro_def :=
| ObjectLike (replacement : list pp_token)
| FunctionLike (params : list string) (body : list body_token).

#[export] Instance macro_def_eq_dec : EqDecision macro_def.
Proof. solve_decision. Defined.

Inductive pp_error :=
| Redefinition (name : string)     (* [#define] of a name defined differently *)
| UnterminatedCall (name : string) (* no closing parenthesis *)
| ArityMismatch (name : string)    (* wrong number of arguments *)
| OutOfFuel.                       (* the expansion fuel ran out *)

(** ** The error monad *)

Definition pp_bind {A B} (m : pp_error + A) (k : A -> pp_error + B) : pp_error + B :=
  match m with inl e => inl e | inr a => k a end.

Declare Scope pp_scope.
Delimit Scope pp_scope with pp.
Notation "'let*' x := m 'in' k" := (pp_bind m (fun x => k))
  (at level 10, x name, m at level 200, k at level 200) : pp_scope.
Open Scope pp_scope.

(** ** Macro expansion *)

Definition is_punct (p : string) (t : pp_token) : bool :=
  match t with PPunct q => String.eqb q p | _ => false end.

(** The arguments of an invocation, up to the closing parenthesis at
    depth 0, split on the commas at depth 0. *)
Fixpoint collect_args (toks : list pp_token) (depth : nat) (cur : list pp_token)
    (args : list (list pp_token)) : option (list (list pp_token) * list pp_token) :=
  match toks with
  | [] => None
  | t :: rest =>
      if is_punct ")" t then
        match depth with
        | O => Some (args ++ [cur], rest)
        | S d => collect_args rest d (cur ++ [t]) args
        end
      else if is_punct "(" t then collect_args rest (S depth) (cur ++ [t]) args
      else if is_punct "," t && Nat.eqb depth 0 then collect_args rest depth [] (args ++ [cur])
      else collect_args rest depth (cur ++ [t]) args
  end.

(** The double quote character. *)
Definition dquote : ascii := "034"%char.

(** The spelling of a token, and of a token sequence with one space
    between tokens (what [#] puts in the string literal). *)
Definition token_spelling (t : pp_token) : string :=
  match t with
  | PIdent n => n
  | PNumber z => to_string z
  | PString s => String dquote (String.append s (String dquote EmptyString))
  | PPunct p => p
  end.

Fixpoint spell (toks : list pp_token) : string :=
  match toks with
  | [] => ""
  | [t] => token_spelling t
  | t :: rest => String.append (token_spelling t) (String " " (spell rest))
  end.

Definition arg_of (params : list string) (args : list (list pp_token)) (p : string)
    : list pp_token :=
  match find (fun qa => String.eqb (fst qa) p) (combine params args) with
  | Some (_, a) => a
  | None => []
  end.

Definition pp_fmap {A B} (f : A -> B) (m : pp_error + A) : pp_error + B :=
  match m with inl e => inl e | inr a => inr (f a) end.

(** The replacement list of a function-like macro with its arguments
    substituted: a parameter by its argument expanded with [exp], [#param]
    by the argument's spelling as a string literal. *)
Fixpoint subst_body (exp : list pp_token -> pp_error + list pp_token) (params : list string)
    (args : list (list pp_token)) (b : list body_token) : pp_error + list pp_token :=
  match b with
  | [] => inr []
  | BTok t :: b' => pp_fmap (cons t) (subst_body exp params args b')
  | BParam p :: b' =>
      let* a := exp (arg_of params args p) in
      let* r := subst_body exp params args b' in inr (a ++ r)
  | BStringize p :: b' =>
      pp_fmap (cons (PString (spell (arg_of params args p)))) (subst_body exp params args b')
  end.

(** Expand [toks] in the macro table [env], rescanning each replacement
    together with the rest of the text. *)
Fixpoint expand (fuel : nat) (env : gmap string macro_def) (toks : list pp_token)
    : pp_error + list pp_token :=
  match fuel with
  | O => inl OutOfFuel
  | S fuel' =>
      match toks with
      | [] => inr []
      | PIdent n :: rest =>
          match env !! n with
          | Some (ObjectLike repl) => expand fuel' env (repl ++ rest)
          | Some (FunctionLike params body) =>
              match rest with
              | t :: rest' =>
                  if is_punct "(" t then
                    match collect_args rest' 0 [] [] with
                    | None => inl (UnterminatedCall n)
                    | Some (args, rest'') =>
                        if Nat.eqb (length args) (length params) then
                          let* repl := subst_body (expand fuel' env) params args body in
                          expand fuel' env (repl ++ rest'')
                        else inl (ArityMismatch n)
                    end
                  else pp_fmap (cons (PIdent n)) (expand fuel' env rest)
              | [] => inr [PIdent n]
              end
          | None => pp_fmap (cons (PIdent n)) (expand fuel' env rest)
          end
      | t :: rest => pp_fmap (cons t) (expand fuel' env rest)
      end
  end.

(** ** Directives and the preprocessor state *)

Inductive directive :=
| PragmaOnce
| IncludeSystem (header : string)   (* [#include <header>] *)
| Define (name : string) (def : macro_def)
| Undef (name : string)
| Text (toks : list pp_token).      (* a line of program text *)

Record pp_state := {
  pp_macros : gmap string macro_def;
  pp_once : gset string;            (* files marked by [#pragma once] *)
  pp_output : list pp_token
}.

Definition pp_init : pp_state := {| pp_macros := ∅; pp_once := ∅; pp_output := [] |}.

(** Expansion fuel for one text line: every token step and every rescan
    uses one unit. *)
Definition pp_fuel : nat := 1024.
Arguments pp_fuel : simpl never.

Definition set_macros (st : pp_state) (m : gmap string macro_def) : pp_state :=
  {| pp_macros := m; pp_once := pp_once st; pp_output := pp_output st |}.

(** One directive of [file]; [fuel] bounds the expansion of a text line. *)
Definition pp_step (fuel : nat) (file : string) (st : pp_state) (d : directive)
    : pp_error + pp_state :=
  match d with
  | PragmaOnce =>
      inr {| pp_macros := pp_macros st; pp_once := {[file]} ∪ pp_once st;
             pp_output := pp_output st |}
  | IncludeSystem _ => inr st
  | Define n def =>
      match pp_macros st !! n with
      | Some def' => if decide (def' = def) then inr st else inl (Redefinition n)
      | None => inr (set_macros st (<[n:=def]> (pp_macros st)))
      end
  | Undef n => inr (set_macros st (delete n (pp_macros st)))
  | Text toks =>
      let* out := expand fuel (pp_macros st) toks in
      inr {| pp_macros := pp_macros st; pp_once := pp_once st;
             pp_output := pp_output st ++ out |}
  end.

Fixpoint pp_run (fuel : nat) (file : string) (st : pp_state) (ds : list directive)
    : pp_error + pp_state :=
  match ds with
  | [] => inr st
  | d :: ds' => let* st' := pp_step fuel file st d in pp_run fuel file st' ds'
  end.

(** [#include "file"]: skipped when the file has been marked by
    [#pragma once]. *)
Definition pp_include (fuel : nat) (file : string) (ds : list directive) (st : pp_state)
    : pp_error + pp_state :=
  if decide (file ∈ pp_once st) then inr st else pp_run fuel file st ds.

(** ** The header *)

Definition bt_transport_h_file : string := "system/types/bt_transport.h".

(** [#define CASE_RETURN_TEXT(code) case code: return #code] *)
Definition CASE_RETURN_TEXT_def : macro_def :=
  FunctionLike ["code"]
    [BTok (PIdent "case"); BParam "code"; BTok (PPunct ":");
     BTok (PIdent "return"); BStringize "code"].

(** Line 24. *)
Definition typedef_tokens : list pp_token :=
  [PIdent "typedef"; PIdent "uint8_t"; PIdent "tBT_TRANSPORT"; PPunct ";"].

(** Lines 30-31. *)
Definition function_head_tokens : list pp_token :=
  [PIdent "inline"; PIdent "std"; PPunct "::"; PIdent "string"; PIdent "bt_transport_text";
   PPunct "("; PIdent "const"; PIdent "tBT_TRANSPORT"; PPunct "&"; PIdent "transport";
   PPunct ")"; PPunct "{"; PIdent "switch"; PPunct "("; PIdent "transport"; PPunct ")";
   PPunct "{"].

(** Lines 32-34. *)
Definition switch_body_tokens : list pp_token :=
  [PIdent "CASE_RETURN_TEXT"; PPunct "("; PIdent "BT_TRANSPORT_AUTO"; PPunct ")"; PPunct ";";
   PIdent "CASE_RETURN_TEXT"; PPunct "("; PIdent "BT_TRANSPORT_BR_EDR"; PPunct ")"; PPunct ";";
   PIdent "CASE_RETURN_TEXT"; PPunct "("; PIdent "BT_TRANSPORT_LE"; PPunct ")"; PPunct ";"].

(** Lines 35-39. *)
Definition function_tail_tokens : list pp_token :=
  [PIdent "default"; PPunct ":"; PIdent "return"; PIdent "std"; PPunct "::"; PIdent "string";
   PPunct "("; PString "UNKNOWN["; PPunct ")"; PPunct "+"; PIdent "std"; PPunct "::";
   PIdent "to_string"; PPunct "("; PIdent "transport"; PPunct ")"; PPunct "+";
   PIdent "std"; PPunct "::"; PIdent "string"; PPunct "("; PString "]"; PPunct ")";
   PPunct ";"; PPunct "}"; PPunct "}"].

(** Lines 17-28: everything before the function. *)
Definition bt_transport_h_prefix : list directive :=
  [PragmaOnce;                                                (* 17 *)
   IncludeSystem "string";                                    (* 19 *)
   Define "BT_TRANSPORT_AUTO" (ObjectLike [PNumber 0]);       (* 21 *)
   Define "BT_TRANSPORT_BR_EDR" (ObjectLike [PNumber 1]);     (* 22 *)
   Define "BT_TRANSPORT_LE" (ObjectLike [PNumber 2]);         (* 23 *)
   Text typedef_tokens;                                       (* 24 *)
   Define "CASE_RETURN_TEXT" CASE_RETURN_TEXT_def].           (* 26-28 *)

(** The whole header, lines 17-40. *)
Definition bt_transport_h : list directive :=
  bt_transport_h_prefix ++
  [Text (function_head_tokens ++ switch_body_tokens ++ function_tail_tokens); (* 30-39 *)
   Undef "CASE_RETURN_TEXT"].                                                 (* 40 *)

(** ** Running directives *)

(** The names a directive defines or undefines. *)
Definition directive_names (d : directive) : list string :=
  match d with Define n _ | Undef n => [n] | _ => [] end.

Lemma pp_bind_inr {A B} (m : pp_error + A) (k : A -> pp_error + B) (b : B) :
  pp_bind m k = inr b <-> exists a, m = inr a /\ k a = inr b.
Proof. destruct m; cbn; [split; [discriminate | intros (? & ? & ?); discriminate] |].
  split; [eauto | intros (? & [= ->] & ?); auto]. Qed.

Lemma pp_run_cons (fuel : nat) (file : string) (st : pp_state) (d : directive)
    (ds : list directive) :
  pp_run fuel file st (d :: ds) = let* st' := pp_step fuel file st d in pp_run fuel file st' ds.
Proof. reflexivity. Qed.

Section Run.
Variable fuel : nat.
Variable file : string.

(** Unfold the directive step and the record projections only ([cbn]
    alone would unfold stdpp's set and map operations). *)
Local Ltac pp_simpl := cbn [pp_step pp_run pp_bind pp_fmap pp_once pp_macros pp_output
                            set_macros directive_names concat map app] in *.

Lemma pp_run_app (st : pp_state) (ds1 ds2 : list directive) :
  pp_run fuel file st (ds1 ++ ds2) = pp_bind (pp_run fuel file st ds1) (fun st' => pp_run fuel file st' ds2).
Proof.
  revert st; induction ds1 as [|d ds1 IH]; intros st; pp_simpl; [reflexivity |].
  destruct (pp_step fuel file st d); pp_simpl; auto.
Qed.

Lemma pp_step_once_mono (st st' : pp_state) (d : directive) :
  pp_step fuel file st d = inr st' -> pp_once st ⊆ pp_once st'.
Proof.
  intros Hs. destruct d; pp_simpl.
  - injection Hs as <-. pp_simpl. set_solver.
  - now injection Hs as <-.
  - destruct (pp_macros st !! name) as [def'|]; [case_decide; [|discriminate]|];
      injection Hs as <-; reflexivity.
  - now injection Hs as <-.
  - destruct (expand fuel (pp_macros st) toks); pp_simpl; [discriminate|].
    now injection Hs as <-.
Qed.

Lemma pp_run_once_mono (st st' : pp_state) (ds : list directive) :
  pp_run fuel file st ds = inr st' -> pp_once st ⊆ pp_once st'.
Proof.
  revert st; induction ds as [|d ds IH]; intros st; pp_simpl; [intros [= <-]; set_solver |].
  intros (st1 & H1 & H2)%pp_bind_inr.
  pose proof (pp_step_once_mono _ _ _ H1); pose proof (IH _ H2); set_solver.
Qed.

(** A directive leaves the macros it does not name as they were. *)
Lemma pp_step_frame (st st' : pp_state) (d : directive) (n : string) :
  pp_step fuel file st d = inr st' -> n ∉ directive_names d ->
  pp_macros st' !! n = pp_macros st !! n.
Proof.
  intros Hs Hn. destruct d; pp_simpl.
  - now injection Hs as <-.
  - now injection Hs as <-.
  - destruct (pp_macros st !! name) as [def'|] eqn:E; [case_decide; [now injection Hs as <-|discriminate] |].
    injection Hs as <-. pp_simpl. apply lookup_insert_ne. set_solver.
  - injection Hs as <-. pp_simpl. apply lookup_delete_ne. set_solver.
  - destruct (expand fuel (pp_macros st) toks); pp_simpl; [discriminate|].
    now injection Hs as <-.
Qed.

Lemma pp_run_frame (st st' : pp_state) (ds : list directive) (n : string) :
  pp_run fuel file st ds = inr st' -> n ∉ concat (map directive_names ds) ->
  pp_macros st' !! n = pp_macros st !! n.
Proof.
  revert st; induction ds as [|d ds IH]; intros st; pp_simpl; [now intros [= <-] |].
  intros (st1 & H1 & H2)%pp_bind_inr Hn.
  rewrite (IH _ H2) by set_solver. apply (pp_step_frame _ _ _ _ H1). set_solver.
Qed.

(** After [#define n def] succeeds, [n] is defined as [def]. *)
Lemma pp_step_define (st st' : pp_state) (n : string) (def : macro_def) :
  pp_step fuel file st (Define n def) = inr st' -> pp_macros st' !! n = Some def.
Proof.
  pp_simpl. destruct (pp_macros st !! n) as [def'|] eqn:E.
  - case_decide; [intros [= <-]; congruence | discriminate].
  - intros [= <-]; pp_simpl. apply lookup_insert_eq.
Qed.

(** A [#define] holds at the end of a run when no later directive names
    the macro. *)
Lemma pp_run_define_persists (st st' : pp_state) (ds1 ds2 : list directive)
    (n : string) (def : macro_def) :
  pp_run fuel file st (ds1 ++ Define n def :: ds2) = inr st' ->
  n ∉ concat (map directive_names ds2) -> pp_macros st' !! n = Some def.
Proof.
  rewrite pp_run_app. intros (st1 & _ & H)%pp_bind_inr Hn. pp_simpl.
  apply pp_bind_inr in H as (st2 & H2 & H3).
  rewrite (pp_run_frame _ _ _ _ H3 Hn). exact (pp_step_define _ _ _ _ H2).
Qed.

(** A text line whose identifiers are not macros is copied unchanged
    (given one unit of fuel per token and one to stop). *)
Lemma expand_plain (env : gmap string macro_def) (toks : list pp_token) (f : nat) :
  (forall n, In (PIdent n) toks -> env !! n = None) -> (length toks < f)%nat ->
  expand f env toks = inr toks.
Proof.
  revert f; induction toks as [|t toks IH]; intros [|f] Hn Hf; cbn [length] in Hf;
    try lia; [reflexivity |].
  assert (Hrest : expand f env toks = inr toks)
    by (apply IH; [intros m Hm; apply Hn; now right | lia]).
  destruct t as [m| | |]; cbn [expand]; try (rewrite Hrest; reflexivity).
  rewrite (Hn m (or_introl eq_refl)), Hrest. reflexivity.
Qed.
End Run.

(** ** Including the header *)

(** The macros the header defines or undefines. *)
Definition bt_transport_h_names : list string :=
  ["BT_TRANSPORT_AUTO"; "BT_TRANSPORT_BR_EDR"; "BT_TRANSPORT_LE"; "CASE_RETURN_TEXT"].

Lemma bt_transport_h_directive_names :
  concat (map directive_names bt_transport_h) =
  ["BT_TRANSPORT_AUTO"; "BT_TRANSPORT_BR_EDR"; "BT_TRANSPORT_LE"; "CASE_RETURN_TEXT";
   "CASE_RETURN_TEXT"].
Proof. reflexivity. Qed.

Section Header.
Variable fuel : nat.

Local Abbreviation include := (pp_include fuel bt_transport_h_file bt_transport_h).

(** A first inclusion runs the header's directives in order. *)
Lemma include_first (st : pp_state) :
  bt_transport_h_file ∉ pp_once st -> include st = pp_run fuel bt_transport_h_file st bt_transport_h.
Proof. intros Hn. unfold pp_include. now rewrite decide_False. Qed.

(** After an inclusion the header is marked by [#pragma once]. *)
Lemma include_marks (st st' : pp_state) :
  include st = inr st' -> bt_transport_h_file ∈ pp_once st'.
Proof.
  unfold pp_include. case_decide as Hin; [now intros [= <-] |].
  cbn [bt_transport_h bt_transport_h_prefix app]. rewrite pp_run_cons.
  intros (st1 & [= <-] & H)%pp_bind_inr.
  apply (pp_run_once_mono _ _ _ _ _ H). cbn [pp_once]. set_solver.
Qed.

(** C8: under [#pragma once], including the header again after a
    successful inclusion changes nothing (state and output unchanged). *)
Theorem bt_transport_h_include_idempotent (st st' : pp_state) :
  include st = inr st' -> include st' = inr st'.
Proof.
  intros H. unfold pp_include. rewrite decide_True; [reflexivity |].
  exact (include_marks _ _ H).
Qed.

(** C13: including the header changes no macro other than its own four
    names: every other entry of the includer's macro table is kept. *)
Theorem bt_transport_h_include_frame (st st' : pp_state) (n : string) :
  include st = inr st' -> n ∉ bt_transport_h_names ->
  pp_macros st' !! n = pp_macros st !! n.
Proof.
  unfold pp_include. case_decide as Hin; [now intros [= <-] |].
  intros Hrun Hn. apply (pp_run_frame _ _ _ _ _ _ Hrun).
  rewrite bt_transport_h_directive_names. unfold bt_transport_h_names in Hn. set_solver.
Qed.

(** C9: after a first inclusion [CASE_RETURN_TEXT] is undefined (line
    40), whatever the includer had defined under that name before. *)
Theorem bt_transport_h_undefines_case_return_text (st st' : pp_state) :
  bt_transport_h_file ∉ pp_once st -> include st = inr st' ->
  pp_macros st' !! "CASE_RETURN_TEXT" = None.
Proof.
  intros Hn. rewrite include_first by exact Hn. unfold bt_transport_h.
  rewrite pp_run_app. intros (st1 & _ & H)%pp_bind_inr.
  rewrite pp_run_cons in H. apply pp_bind_inr in H as (st2 & _ & H).
  rewrite pp_run_cons in H. apply pp_bind_inr in H as (st3 & Hs & [= <-]).
  cbn [pp_step] in Hs. injection Hs as <-.
  cbn [set_macros pp_macros]. apply lookup_delete_eq.
Qed.

(** C14: after a first inclusion the three transport codes are defined
    as the integer literals 0, 1 and 2. *)
Theorem bt_transport_h_defines_codes (st st' : pp_state) :
  bt_transport_h_file ∉ pp_once st -> include st = inr st' ->
  pp_macros st' !! "BT_TRANSPORT_AUTO" = Some (ObjectLike [PNumber 0]) /\
  pp_macros st' !! "BT_TRANSPORT_BR_EDR" = Some (ObjectLike [PNumber 1]) /\
  pp_macros st' !! "BT_TRANSPORT_LE" = Some (ObjectLike [PNumber 2]).
Proof.
  intros Hn. rewrite include_first by exact Hn. intros H.
  (* the three [#define]s are the 3rd, 4th and 5th directives *)
  split; [|split].
  - apply (pp_run_define_persists fuel _ _ _ [_; _] _ _ _ H). cbn. set_solver.
  - apply (pp_run_define_persists fuel _ _ _ [_; _; _] _ _ _ H). cbn. set_solver.
  - apply (pp_run_define_persists fuel _ _ _ [_; _; _; _] _ _ _ H). cbn. set_solver.
Qed.

(** Unfold the run of a concrete directive list. *)
Local Ltac run := cbn [pp_run pp_step pp_bind pp_macros set_macros].

(** The identifiers of lines 21-24 that an includer could have defined. *)
Definition bt_transport_h_prefix_idents : list string :=
  ["BT_TRANSPORT_AUTO"; "BT_TRANSPORT_BR_EDR"; "BT_TRANSPORT_LE";
   "typedef"; "uint8_t"; "tBT_TRANSPORT"].

(** C10: an includer that defines [CASE_RETURN_TEXT] differently (for
    instance with a trailing [;]) cannot include the header: line 26 is
    an invalid redefinition, reported as [Redefinition]. *)
Theorem bt_transport_h_redefinition_error (st : pp_state) (def : macro_def) :
  bt_transport_h_file ∉ pp_once st ->
  Forall (fun n => pp_macros st !! n = None) bt_transport_h_prefix_idents ->
  pp_macros st !! "CASE_RETURN_TEXT" = Some def -> def <> CASE_RETURN_TEXT_def ->
  (4 < fuel)%nat ->
  include st = inl (Redefinition "CASE_RETURN_TEXT").
Proof.
  intros Hn Hnone Hcrt Hne Hf. rewrite Forall_forall in Hnone.
  rewrite include_first by exact Hn.
  pose proof (Hnone "BT_TRANSPORT_AUTO" ltac:(set_solver)) as Ha.
  pose proof (Hnone "BT_TRANSPORT_BR_EDR" ltac:(set_solver)) as Hb.
  pose proof (Hnone "BT_TRANSPORT_LE" ltac:(set_solver)) as Hl.
  cbn [bt_transport_h bt_transport_h_prefix app].
  run. rewrite Ha. run. rewrite lookup_insert_ne, Hb by discriminate.
  run. rewrite !lookup_insert_ne, Hl by discriminate.
  run. rewrite expand_plain; [| | cbn; lia].
  - run. rewrite !lookup_insert_ne, Hcrt by discriminate.
    now rewrite decide_False.
  - intros m Hm. cbn in Hm.
    destruct Hm as [[= <-] | [[= <-] | [[= <-] | [[=] | []]]]];
      rewrite !lookup_insert_ne by discriminate; apply Hnone; set_solver.
Qed.
End Header.

(** ** The header from the start of a translation unit *)

(** The tokens [case <label> : return "<text>" ;] of one switch case. *)
Definition switch_case_tokens (c : switch_case) : list pp_token :=
  [PIdent "case"; PNumber (case_label c); PPunct ":"; PIdent "return";
   PString (case_text c); PPunct ";"].

(** ** Witnesses *)

(** Prove a decidable proposition by evaluating its decision procedure. *)
Ltac by_decide := apply (bool_decide_unpack _); vm_compute; exact I.

(** The state after including the header first in a translation unit. *)
Definition bt_transport_h_state : pp_state :=
  match pp_include pp_fuel bt_transport_h_file bt_transport_h pp_init with
  | inr st => st
  | inl _ => pp_init
  end.

Lemma bt_transport_h_include_idempotent_witness :
  pp_include pp_fuel bt_transport_h_file bt_transport_h pp_init = inr bt_transport_h_state /\
  pp_include pp_fuel bt_transport_h_file bt_transport_h bt_transport_h_state =
    inr bt_transport_h_state.
Proof.
  split; [vm_compute; reflexivity |].
  apply (bt_transport_h_include_idempotent pp_fuel pp_init). vm_compute; reflexivity.
Defined.

Lemma bt_transport_h_include_frame_witness :
  pp_include pp_fuel bt_transport_h_file bt_transport_h pp_init = inr bt_transport_h_state /\
  ("std" ∉ bt_transport_h_names) /\
  pp_macros bt_transport_h_state !! "std" = pp_macros pp_init !! "std".
Proof.
  split; [vm_compute; reflexivity | split; [by_decide |]].
  apply (bt_transport_h_include_frame pp_fuel pp_init); [vm_compute; reflexivity | by_decide].
Defined.

Lemma bt_transport_h_undefines_case_return_text_witness :
  (bt_transport_h_file ∉ pp_once pp_init) /\
  pp_include pp_fuel bt_transport_h_file bt_transport_h pp_init = inr bt_transport_h_state /\
  pp_macros bt_transport_h_state !! "CASE_RETURN_TEXT" = None.
Proof.
  split; [by_decide | split; [vm_compute; reflexivity |]].
  apply (bt_transport_h_undefines_case_return_text pp_fuel pp_init); [by_decide | vm_compute; reflexivity].
Defined.

Lemma bt_transport_h_defines_codes_witness :
  pp_macros bt_transport_h_state !! "BT_TRANSPORT_AUTO" = Some (ObjectLike [PNumber 0]) /\
  pp_macros bt_transport_h_state !! "BT_TRANSPORT_BR_EDR" = Some (ObjectLike [PNumber 1]) /\
  pp_macros bt_transport_h_state !! "BT_TRANSPORT_LE" = Some (ObjectLike [PNumber 2]).
Proof.
  apply (bt_transport_h_defines_codes pp_fuel pp_init); [by_decide | vm_compute; reflexivity].
Defined.

(** An includer with its own [CASE_RETURN_TEXT], ending in [;]. *)
Definition includer_with_own_case_return_text : pp_state :=
  {| pp_macros := {["CASE_RETURN_TEXT" :=
                     FunctionLike ["code"]
                       [BTok (PIdent "case"); BParam "code"; BTok (PPunct ":");
                        BTok (PIdent "return"); BStringize "code"; BTok (PPunct ";")]]};
     pp_once := ∅; pp_output := [] |}.

Lemma bt_transport_h_redefinition_error_witness :
  pp_include pp_fuel bt_transport_h_file bt_transport_h includer_with_own_case_return_text =
  inl (Redefinition "CASE_RETURN_TEXT").
Proof.
  apply (bt_transport_h_redefinition_error pp_fuel _
           (FunctionLike ["code"]
              [BTok (PIdent "case"); BParam "code"; BTok (PPunct ":");
               BTok (PIdent "return"); BStringize "code"; BTok (PPunct ";")]));
    [by_decide | by_decide | vm_compute; reflexivity | by_decide | vm_compute; lia].
Defined.
