(* ===== verification/Expansion.v ===== *)
(** * Metatheory of macro expansion, and the header in any includer

    [Preprocessor] runs the header from an empty translation unit.  A real
    includer arrives with macros of its own; this file shows that they do
    not matter as long as they avoid the identifiers of the header.

    The argument follows the free-variable lemma of an evaluator
    ([aeval_free]): expansion only looks up the identifiers it meets, and
    the identifiers it meets stay inside a set [P] that is closed under
    the macro table ([macros_closed]).  Two macro tables that agree on [P]
    therefore expand a text line over [P] alike ([expand_agree]).  With
    fuel monotonicity ([expand_fuel_mono]) this lifts to directive lists
    ([pp_run_agree]) and gives the effect of [#include] on any includer
    ([bt_transport_h_include_any]). *)

From stdpp Require Import base gmap strings.
From Stdlib Require Import ZArith String List Lia.
From S2P Require Import Prelude StdString BtTransport Preprocessor.
Import ListNotations.

Open Scope string_scope.
Open Scope list_scope.

(** ** Identifier sets *)

Section Names.
Variable P : string -> Prop.

(** Every identifier of a token list is in [P]. *)
Definition idents_in (toks : list pp_token) : Prop :=
  forall n, In (PIdent n) toks -> P n.

Definition body_idents_in (b : list body_token) : Prop :=
  forall n, In (BTok (PIdent n)) b -> P n.

Definition def_idents_in (d : macro_def) : Prop :=
  match d with
  | ObjectLike repl => idents_in repl
  | FunctionLike _ body => body_idents_in body
  end.

(** The replacement of every macro named in [P] stays in [P]. *)
Definition macros_closed (env : gmap string macro_def) : Prop :=
  forall n d, P n -> env !! n = Some d -> def_idents_in d.

(** Two macro tables agree on the names of [P]. *)
Definition macros_agree (env1 env2 : gmap string macro_def) : Prop :=
  forall n, P n -> env1 !! n = env2 !! n.

Lemma idents_in_nil : idents_in [].
Proof. intros n []. Qed.

Lemma idents_in_app (a b : list pp_token) :
  idents_in (a ++ b) <-> idents_in a /\ idents_in b.
Proof.
  unfold idents_in; split.
  - intros H; split; intros n Hn; apply H, in_or_app; auto.
  - intros [Ha Hb] n [Hn|Hn]%in_app_or; auto.
Qed.

Lemma idents_in_cons (t : pp_token) (toks : list pp_token) :
  idents_in (t :: toks) <-> idents_in [t] /\ idents_in toks.
Proof. exact (idents_in_app [t] toks). Qed.

(** Tokens other than identifiers are always in. *)
Lemma idents_in_single (t : pp_token) :
  (forall n, t <> PIdent n) -> idents_in [t].
Proof. intros Ht n [->|[]]. now destruct (Ht n). Qed.

Lemma body_idents_in_cons (bt : body_token) (b : list body_token) :
  body_idents_in (bt :: b) <->
  (forall n, bt = BTok (PIdent n) -> P n) /\ body_idents_in b.
Proof.
  unfold body_idents_in; split.
  - intros H; split; [intros n Hn; apply H; left; now symmetry | intros n Hn; apply H; now right].
  - intros [H1 H2] n [Hn|Hn]; [apply H1; now symmetry | auto].
Qed.

Lemma macros_agree_refl (env : gmap string macro_def) : macros_agree env env.
Proof. now intros n _. Qed.

Lemma macros_agree_insert (env1 env2 : gmap string macro_def) (n : string) (d : macro_def) :
  macros_agree env1 env2 -> macros_agree (<[n:=d]> env1) (<[n:=d]> env2).
Proof.
  intros H m Hm. destruct (decide (n = m)) as [<-|Hne].
  - now rewrite !lookup_insert_eq.
  - rewrite !lookup_insert_ne by exact Hne. auto.
Qed.

Lemma macros_agree_delete (env1 env2 : gmap string macro_def) (n : string) :
  macros_agree env1 env2 -> macros_agree (delete n env1) (delete n env2).
Proof.
  intros H m Hm. destruct (decide (n = m)) as [<-|Hne].
  - now rewrite !lookup_delete_eq.
  - rewrite !lookup_delete_ne by exact Hne. auto.
Qed.

Lemma macros_closed_insert (env : gmap string macro_def) (n : string) (d : macro_def) :
  def_idents_in d -> macros_closed env -> macros_closed (<[n:=d]> env).
Proof.
  intros Hd Hc m d' Hm. destruct (decide (n = m)) as [<-|Hne].
  - rewrite lookup_insert_eq. now intros [= <-].
  - rewrite lookup_insert_ne by exact Hne. apply Hc, Hm.
Qed.

Lemma macros_closed_delete (env : gmap string macro_def) (n : string) :
  macros_closed env -> macros_closed (delete n env).
Proof.
  intros Hc m d Hm. destruct (decide (n = m)) as [<-|Hne].
  - now rewrite lookup_delete_eq.
  - rewrite lookup_delete_ne by exact Hne. apply Hc, Hm.
Qed.

Lemma macros_closed_empty : macros_closed ∅.
Proof. intros n d _. now rewrite lookup_empty. Qed.
End Names.

#[export] Hint Resolve idents_in_nil macros_agree_refl macros_agree_insert macros_agree_delete
  macros_closed_insert macros_closed_delete macros_closed_empty : cpp.

(** ** Expansion stays in a closed name set *)

Lemma pp_fmap_inr {A B} (f : A -> B) (m : pp_error + A) (b : B) :
  pp_fmap f m = inr b <-> exists a, m = inr a /\ b = f a.
Proof. destruct m; cbn; split; [discriminate | intros (? & ? & _); discriminate | |];
  [intros [= <-]; eauto | intros (? & [= <-] & ->); reflexivity]. Qed.

Section Expand.
Variable P : string -> Prop.
Local Abbreviation idents_in := (idents_in P).

(** Split the identifier hypotheses of a token list. *)
Local Ltac split_idents :=
  repeat match goal with
  | H : idents_in (_ :: ?l) |- _ =>
      lazymatch l with [] => fail | _ => apply idents_in_cons in H as [? ?] end
  | H : idents_in (_ ++ _) |- _ => apply idents_in_app in H as [? ?]
  | |- idents_in (_ ++ _) => apply idents_in_app; split
  | |- idents_in (_ :: ?l) =>
      lazymatch l with [] => fail | _ => apply idents_in_cons; split end
  end.

(** The arguments and the rest of an invocation are pieces of its text. *)
Lemma collect_args_idents (toks : list pp_token) (depth : nat) (cur : list pp_token)
    (args args' : list (list pp_token)) (rest : list pp_token) :
  collect_args toks depth cur args = Some (args', rest) ->
  idents_in toks -> idents_in cur -> Forall idents_in args ->
  Forall idents_in args' /\ idents_in rest.
Proof.
  revert depth cur args; induction toks as [|t toks IH]; intros depth cur args;
    cbn [collect_args]; [discriminate |].
  intros H Ht Hc Ha. split_idents.
  destruct (is_punct ")" t); [destruct depth as [|d] |].
  - injection H as <- <-. split; [apply Forall_app; auto | assumption].
  - eapply IH; [exact H | assumption | split_idents; auto | assumption].
  - destruct (is_punct "(" t);
      [eapply IH; [exact H | assumption | split_idents; auto | assumption] |].
    destruct (is_punct "," t && Nat.eqb depth 0); eapply IH; try exact H; try assumption.
    + auto with cpp.
    + apply Forall_app; auto.
    + split_idents; auto.
Qed.

Lemma arg_of_idents (params : list string) (args : list (list pp_token)) (p : string) :
  Forall idents_in args -> idents_in (arg_of params args p).
Proof.
  unfold arg_of. intros Ha. destruct (find _ _) as [[q a]|] eqn:E; [| auto with cpp].
  apply find_some in E as [Hin _]. apply in_combine_r in Hin.
  rewrite Forall_forall in Ha. auto.
Qed.

(** Substitution only calls the argument expander on arguments. *)
Lemma subst_body_ext (exp1 exp2 : list pp_token -> pp_error + list pp_token)
    (params : list string) (args : list (list pp_token)) (b : list body_token) :
  (forall a, idents_in a -> exp1 a = exp2 a) -> Forall idents_in args ->
  subst_body exp1 params args b = subst_body exp2 params args b.
Proof.
  intros Hexp Ha. induction b as [|[t|p|p] b IH]; cbn [subst_body]; [reflexivity | | |].
  - now rewrite IH.
  - rewrite Hexp by (apply arg_of_idents, Ha). now rewrite IH.
  - now rewrite IH.
Qed.

Lemma subst_body_idents (exp : list pp_token -> pp_error + list pp_token)
    (params : list string) (args : list (list pp_token)) (b : list body_token)
    (r : list pp_token) :
  (forall a r, idents_in a -> exp a = inr r -> idents_in r) -> Forall idents_in args ->
  body_idents_in P b -> subst_body exp params args b = inr r -> idents_in r.
Proof.
  intros Hexp Ha. revert r; induction b as [|[t|p|p] b IH]; intros r Hb;
    apply body_idents_in_cons in Hb as [Hb1 Hb]||idtac; cbn [subst_body].
  - intros [= <-]. auto with cpp.
  - intros (r' & Hr' & ->)%pp_fmap_inr. split_idents; [| eauto].
    intros n [->|[]]. now apply Hb1.
  - intros (a & Hx & (r' & Hr' & [= <-])%pp_bind_inr)%pp_bind_inr.
    split_idents; [eapply Hexp; [apply arg_of_idents|]|]; eauto.
  - intros (r' & Hr' & ->)%pp_fmap_inr. split_idents; [| eauto].
    apply idents_in_single. discriminate.
Qed.

Lemma subst_body_mono (exp1 exp2 : list pp_token -> pp_error + list pp_token)
    (params : list string) (args : list (list pp_token)) (b : list body_token)
    (r : list pp_token) :
  (forall a r, exp1 a = inr r -> exp2 a = inr r) ->
  subst_body exp1 params args b = inr r -> subst_body exp2 params args b = inr r.
Proof.
  intros Hexp. revert r; induction b as [|[t|p|p] b IH]; intros r; cbn [subst_body]; [auto | | |].
  - intros (r' & Hr' & ->)%pp_fmap_inr. now rewrite (IH _ Hr').
  - intros (a & Hx & (r' & Hr' & [= <-])%pp_bind_inr)%pp_bind_inr.
    now rewrite (Hexp _ _ Hx), (IH _ Hr').
  - intros (r' & Hr' & ->)%pp_fmap_inr. now rewrite (IH _ Hr').
Qed.

(** The output of an expansion over [P] in a table closed under [P] is
    over [P]. *)
Lemma expand_idents (f : nat) (env : gmap string macro_def) (toks r : list pp_token) :
  macros_closed P env -> idents_in toks -> expand f env toks = inr r -> idents_in r.
Proof.
  intros Hc. revert toks r; induction f as [|f IH]; intros toks r Ht; cbn [expand];
    [discriminate |].
  destruct toks as [|t rest]; [intros [= <-]; auto with cpp |].
  split_idents.
  assert (Hcons : forall x, idents_in [x] -> forall r', expand f env rest = inr r' ->
            idents_in (x :: r')) by (intros x Hx r' Hr'; split_idents; eauto).
  destruct t as [n| | |];
    try (intros (r' & Hr' & ->)%pp_fmap_inr; eauto; fail).
  assert (Hn : P n) by (apply H; now left).
  destruct (env !! n) as [[repl|params body]|] eqn:E;
    [| | intros (r' & Hr' & ->)%pp_fmap_inr; eauto].
  - apply IH. split_idents; [exact (Hc _ _ Hn E) | assumption].
  - destruct rest as [|t' rest']; [intros [= <-]; assumption |].
    split_idents.
    destruct (is_punct "(" t'); [| intros (r' & Hr' & ->)%pp_fmap_inr; eauto].
    destruct (collect_args rest' 0 [] []) as [[args rest'']|] eqn:Ec; [| discriminate].
    destruct (collect_args_idents _ _ _ _ _ _ Ec) as [Ha Hr'']; auto with cpp.
    destruct (Nat.eqb _ _); [| discriminate].
    intros (repl & Hs & Hx)%pp_bind_inr. apply IH in Hx; [assumption |].
    split_idents; [| assumption].
    eapply subst_body_idents; [exact (IH) | exact Ha | exact (Hc _ _ Hn E) | exact Hs].
Qed.

(** Two tables that agree on a closed set [P] expand a text over [P]
    alike, errors included. *)
Lemma expand_agree (f : nat) (env1 env2 : gmap string macro_def) (toks : list pp_token) :
  macros_closed P env1 -> macros_agree P env1 env2 -> idents_in toks ->
  expand f env1 toks = expand f env2 toks.
Proof.
  intros Hc Hag. revert toks; induction f as [|f IH]; intros toks Ht; cbn [expand];
    [reflexivity |].
  destruct toks as [|t rest]; [reflexivity |]. split_idents.
  destruct t as [n| | |]; try (rewrite IH by assumption; reflexivity).
  assert (Hn : P n) by (apply H; now left).
  rewrite <- (Hag n Hn).
  destruct (env1 !! n) as [[repl|params body]|] eqn:E; [| | rewrite IH by assumption; reflexivity].
  - apply IH. split_idents; [exact (Hc _ _ Hn E) | assumption].
  - destruct rest as [|t' rest']; [reflexivity |]. split_idents.
    destruct (is_punct "(" t'); [| rewrite IH by (split_idents; assumption); reflexivity].
    destruct (collect_args rest' 0 [] []) as [[args rest'']|] eqn:Ec; [| reflexivity].
    destruct (collect_args_idents _ _ _ _ _ _ Ec) as [Ha Hr'']; auto with cpp.
    destruct (Nat.eqb _ _); [| reflexivity].
    rewrite <- (subst_body_ext (expand f env1) (expand f env2)) by auto.
    destruct (subst_body (expand f env1) params args body) as [e|repl] eqn:Es; [reflexivity |].
    cbn [pp_bind]. apply IH. split_idents; [| assumption].
    eapply subst_body_idents; [| exact Ha | exact (Hc _ _ Hn E) | exact Es].
    intros a r; apply expand_idents, Hc.
Qed.
End Expand.

(** More fuel does not change a successful expansion. *)
Lemma expand_fuel_mono (f f' : nat) (env : gmap string macro_def) (toks r : list pp_token) :
  expand f env toks = inr r -> (f <= f')%nat -> expand f' env toks = inr r.
Proof.
  revert f' toks r; induction f as [|f IH]; intros [|f'] toks r; cbn [expand];
    try discriminate; [intros _ Hle; lia |].
  intros Hx Hle. assert (Hle' : (f <= f')%nat) by lia.
  assert (Hcons : forall x toks' r', expand f env toks' = inr r' ->
            pp_fmap (cons x) (expand f' env toks') = inr (x :: r'))
    by (intros x toks' r' Hr'; now rewrite (IH f' _ _ Hr' Hle')).
  destruct toks as [|t rest]; [exact Hx |].
  destruct t as [n| | |]; try (apply pp_fmap_inr in Hx as (r' & Hr' & ->); auto; fail).
  destruct (env !! n) as [[repl|params body]|];
    [auto | | apply pp_fmap_inr in Hx as (r' & Hr' & ->); auto].
  destruct rest as [|t' rest']; [exact Hx |].
  destruct (is_punct "(" t'); [| apply pp_fmap_inr in Hx as (r' & Hr' & ->); auto].
  destruct (collect_args rest' 0 [] []) as [[args rest'']|]; [| discriminate].
  destruct (Nat.eqb _ _); [| discriminate].
  apply pp_bind_inr in Hx as (repl & Hs & Hx).
  rewrite (subst_body_mono (expand f env) (expand f' env) _ _ _ _ (fun a r' H => IH f' a r' H Hle') Hs).
  cbn [pp_bind]. auto.
Qed.

(** ** Directive runs in two translation units *)

Section Agree.
Variable P : string -> Prop.

(** A directive whose names, replacement and text are over [P]. *)
Definition directive_in (d : directive) : Prop :=
  match d with
  | PragmaOnce | IncludeSystem _ => True
  | Define n def => P n /\ def_idents_in P def
  | Undef n => P n
  | Text toks => idents_in P toks
  end.

(** [st] is the state [st0] of a translation unit that started empty,
    seen in an includer that had already produced [out] and marked
    [once]: same macros on [P], outputs and marks framed by the
    includer's. *)
Definition pp_state_sim (out : list pp_token) (once : gset string) (st st0 : pp_state) : Prop :=
  macros_closed P (pp_macros st) /\ macros_agree P (pp_macros st) (pp_macros st0) /\
  pp_once st = once ∪ pp_once st0 /\ pp_output st = out ++ pp_output st0.

(** Both sides fail with the same error, or both succeed in related
    states. *)
Definition sim_result (out : list pp_token) (once : gset string)
    (r r0 : pp_error + pp_state) : Prop :=
  match r, r0 with
  | inr st, inr st0 => pp_state_sim out once st st0
  | inl e, inl e0 => e = e0
  | _, _ => False
  end.

Lemma pp_step_agree (fuel : nat) (file : string) (out : list pp_token) (once : gset string)
    (st st0 : pp_state) (d : directive) :
  directive_in d -> pp_state_sim out once st st0 ->
  sim_result out once (pp_step fuel file st d) (pp_step fuel file st0 d).
Proof.
  intros Hd (Hc & Hag & Ho & Hout).
  destruct d as [| |n def|n|toks]; cbn [pp_step sim_result directive_in] in *.
  - repeat split; auto. cbn [pp_once]. rewrite Ho. set_solver.
  - repeat split; auto.
  - destruct Hd as [Hn Hdef]. rewrite (Hag n Hn).
    destruct (pp_macros st0 !! n) as [def'|]; [case_decide; cbn [sim_result]; [repeat split |]; auto |].
    repeat split; cbn [set_macros pp_macros pp_once pp_output]; auto with cpp.
  - repeat split; cbn [set_macros pp_macros pp_once pp_output]; auto with cpp.
  - rewrite (expand_agree P fuel (pp_macros st) (pp_macros st0) toks Hc Hag Hd).
    destruct (expand fuel (pp_macros st0) toks); cbn [pp_bind sim_result]; [reflexivity |].
    repeat split; cbn [pp_macros pp_once pp_output]; auto.
    rewrite Hout. symmetry; apply app_assoc.
Qed.

Lemma pp_run_agree (fuel : nat) (file : string) (out : list pp_token) (once : gset string)
    (st st0 : pp_state) (ds : list directive) :
  Forall directive_in ds -> pp_state_sim out once st st0 ->
  sim_result out once (pp_run fuel file st ds) (pp_run fuel file st0 ds).
Proof.
  intros Hds; revert st st0; induction Hds as [|d ds Hd Hds IH]; intros st st0 Hsim;
    [exact Hsim |].
  rewrite !pp_run_cons. pose proof (pp_step_agree fuel file _ _ _ _ _ Hd Hsim) as Hs.
  destruct (pp_step fuel file st d), (pp_step fuel file st0 d); cbn [pp_bind sim_result] in *;
    [exact Hs | contradiction | contradiction | auto].
Qed.
End Agree.

(** More fuel does not change a successful run. *)
Lemma pp_run_fuel_mono (f f' : nat) (file : string) (st st' : pp_state) (ds : list directive) :
  pp_run f file st ds = inr st' -> (f <= f')%nat -> pp_run f' file st ds = inr st'.
Proof.
  intros H Hle; revert st H; induction ds as [|d ds IH]; intros st; [exact id |].
  rewrite !pp_run_cons. intros (st1 & H1 & H2)%pp_bind_inr.
  enough (pp_step f' file st d = inr st1) as -> by (cbn [pp_bind]; auto).
  destruct d; cbn [pp_step] in *; try exact H1.
  apply pp_bind_inr in H1 as (r & Hr & H1).
  now rewrite (expand_fuel_mono _ _ _ _ _ Hr Hle).
Qed.

(** ** The header in any includer *)

(** Every identifier of the header: its text lines, the replacement of
    [CASE_RETURN_TEXT] and the macros it defines. *)
Definition bt_transport_h_idents : list string :=
  ["typedef"; "uint8_t"; "tBT_TRANSPORT"; "inline"; "std"; "string"; "bt_transport_text";
   "const"; "transport"; "switch"; "CASE_RETURN_TEXT"; "BT_TRANSPORT_AUTO";
   "BT_TRANSPORT_BR_EDR"; "BT_TRANSPORT_LE"; "default"; "return"; "to_string"; "case"].

(** The expansion fuel the header needs: its text line of lines 30-39
    takes 65 steps of [expand]. *)
Definition bt_transport_h_fuel : nat := 65.

(** What the header appends to the token output. *)
Definition bt_transport_h_output : list pp_token :=
  typedef_tokens ++ function_head_tokens ++
  concat (map switch_case_tokens bt_transport_text_cases) ++ function_tail_tokens.

(** The includer's macro table after the header: the three codes added. *)
Definition bt_transport_h_macros (m : gmap string macro_def) : gmap string macro_def :=
  <["BT_TRANSPORT_LE" := ObjectLike [PNumber 2]]>
    (<["BT_TRANSPORT_BR_EDR" := ObjectLike [PNumber 1]]>
       (<["BT_TRANSPORT_AUTO" := ObjectLike [PNumber 0]]> m)).

Local Abbreviation in_h := (fun n : string => n ∈ bt_transport_h_idents).

(** Check [idents_in] by evaluation. *)
Definition idents_inb (l : list string) (toks : list pp_token) : bool :=
  forallb (fun t => match t with PIdent n => bool_decide (n ∈ l) | _ => true end) toks.

Lemma idents_inb_sound (l : list string) (toks : list pp_token) :
  idents_inb l toks = true -> idents_in (fun n => n ∈ l) toks.
Proof.
  unfold idents_inb. rewrite forallb_forall. intros H n Hn.
  apply (bool_decide_eq_true_1 _), (H _ Hn).
Qed.

Lemma bt_transport_h_directives_in : Forall (directive_in in_h) bt_transport_h.
Proof.
  unfold bt_transport_h, bt_transport_h_prefix, CASE_RETURN_TEXT_def; cbn [app].
  repeat apply Forall_cons; try apply Forall_nil; cbn [directive_in def_idents_in];
    repeat split; try (apply idents_inb_sound; vm_compute; reflexivity); try set_solver.
  intros n Hn. repeat destruct Hn as [Hn|Hn]; simplify_eq; set_solver.
Qed.

(** From an empty translation unit, with exactly enough fuel. *)
Lemma bt_transport_h_run_init :
  pp_run bt_transport_h_fuel bt_transport_h_file pp_init bt_transport_h =
  inr {| pp_macros := bt_transport_h_macros ∅; pp_once := {[bt_transport_h_file]};
         pp_output := bt_transport_h_output |}.
Proof. vm_compute. reflexivity. Qed.

Section Includer.
Variable st : pp_state.
Hypothesis avoids : Forall (fun n => pp_macros st !! n = None) bt_transport_h_idents.

Lemma avoids_lookup (n : string) : n ∈ bt_transport_h_idents -> pp_macros st !! n = None.
Proof. intros Hn. rewrite Forall_forall in avoids. apply avoids, list_elem_of_In, Hn. Qed.

(** The includer relates to the empty translation unit. *)
Lemma includer_sim_init : pp_state_sim in_h (pp_output st) (pp_once st) st pp_init.
Proof.
  repeat split; cbn [pp_macros pp_once pp_output pp_init].
  - intros n d Hn. now rewrite avoids_lookup.
  - intros n Hn. rewrite avoids_lookup by exact Hn. now rewrite lookup_empty.
  - set_solver.
  - now rewrite app_nil_r.
Qed.

(** A table that agrees with [bt_transport_h_macros ∅] on the header's
    identifiers and with the includer elsewhere is [bt_transport_h_macros]
    of the includer's. *)
Lemma header_macros_eq (m : gmap string macro_def) :
  macros_agree in_h m (bt_transport_h_macros ∅) ->
  (forall n, n ∉ bt_transport_h_idents -> m !! n = pp_macros st !! n) ->
  m = bt_transport_h_macros (pp_macros st).
Proof.
  intros Hag Hout. apply map_eq. intros n. unfold bt_transport_h_macros.
  destruct (decide (n ∈ bt_transport_h_idents)) as [Hn|Hn].
  - rewrite (Hag n Hn). unfold bt_transport_h_macros.
    destruct (decide (n = "BT_TRANSPORT_LE")) as [->|H1]; [now simplify_map_eq |].
    destruct (decide (n = "BT_TRANSPORT_BR_EDR")) as [->|H2]; [now simplify_map_eq |].
    destruct (decide (n = "BT_TRANSPORT_AUTO")) as [->|H3]; [now simplify_map_eq |].
    rewrite !lookup_insert_ne by congruence. rewrite lookup_empty. now rewrite avoids_lookup.
  - rewrite Hout by exact Hn. rewrite !lookup_insert_ne; [reflexivity | set_solver ..].
Qed.
End Includer.

(** An includer that avoids the header's identifiers runs the header as
    the empty translation unit does. *)
Lemma include_sim (fuel : nat) (st : pp_state) :
  Forall (fun n => pp_macros st !! n = None) bt_transport_h_idents ->
  sim_result in_h (pp_output st) (pp_once st)
    (pp_run fuel bt_transport_h_file st bt_transport_h)
    (pp_run fuel bt_transport_h_file pp_init bt_transport_h).
Proof.
  intros Hav. apply pp_run_agree; [exact bt_transport_h_directives_in |].
  exact (includer_sim_init st Hav).
Qed.

(** The effect of a successful first inclusion on any includer. *)
Lemma include_any (fuel : nat) (st : pp_state) :
  bt_transport_h_file ∉ pp_once st ->
  Forall (fun n => pp_macros st !! n = None) bt_transport_h_idents ->
  (bt_transport_h_fuel <= fuel)%nat ->
  pp_include fuel bt_transport_h_file bt_transport_h st =
  inr {| pp_macros := bt_transport_h_macros (pp_macros st);
         pp_once := pp_once st ∪ {[bt_transport_h_file]};
         pp_output := pp_output st ++ bt_transport_h_output |}.
Proof.
  intros Hn Hav Hf. rewrite include_first by exact Hn.
  pose proof (include_sim fuel st Hav) as Hs.
  rewrite (pp_run_fuel_mono _ _ _ _ _ _ bt_transport_h_run_init Hf) in Hs.
  destruct (pp_run fuel bt_transport_h_file st bt_transport_h) as [e|[m o out]] eqn:E;
    [contradiction |].
  destruct Hs as (_ & Hag & Ho & Hout); cbn [pp_macros pp_once pp_output] in *.
  rewrite Ho, Hout, (header_macros_eq st Hav m Hag); [reflexivity |].
  intros n Hn'. apply (pp_run_frame fuel bt_transport_h_file _ _ _ n E).
  rewrite bt_transport_h_directive_names. unfold bt_transport_h_idents in Hn'. set_solver.
Qed.

(** ** Properties of the header in any includer *)

(** C6: any includer whose macros avoid the header's identifiers can
    include the header, given at least [bt_transport_h_fuel] units of
    expansion fuel: the inclusion succeeds, adds the three codes to the
    includer's macros and leaves the others (and no [CASE_RETURN_TEXT])
    in place, marks the header, and appends exactly the header's tokens,
    with the three expanded cases, to the includer's output. *)
Theorem bt_transport_h_include_any (fuel : nat) (st : pp_state) :
  bt_transport_h_file ∉ pp_once st ->
  Forall (fun n => pp_macros st !! n = None) bt_transport_h_idents ->
  (bt_transport_h_fuel <= fuel)%nat ->
  pp_include fuel bt_transport_h_file bt_transport_h st =
  inr {| pp_macros := bt_transport_h_macros (pp_macros st);
         pp_once := pp_once st ∪ {[bt_transport_h_file]};
         pp_output := pp_output st ++ bt_transport_h_output |}.
Proof. apply include_any. Qed.

(** ** Witnesses *)

(** An includer with a macro of its own, an earlier header marked, and
    some output. *)
Definition includer_with_log_tag : pp_state :=
  {| pp_macros := {["LOG_TAG" := ObjectLike [PString "bt_btm"]]};
     pp_once := {["system/types/raw_address.h"]};
     pp_output := [PIdent "namespace"; PIdent "bluetooth"; PPunct "{"] |}.

Lemma bt_transport_h_include_any_witness :
  pp_include 65 bt_transport_h_file bt_transport_h includer_with_log_tag =
  inr {| pp_macros := bt_transport_h_macros (pp_macros includer_with_log_tag);
         pp_once := {["system/types/raw_address.h"]} ∪ {[bt_transport_h_file]};
         pp_output := pp_output includer_with_log_tag ++ bt_transport_h_output |}.
Proof. apply (bt_transport_h_include_any 65 includer_with_log_tag); [by_decide | by_decide | unfold bt_transport_h_fuel; lia]. Defined.

