(* ===== verification/CppFunction.v ===== *)
(** * The C++ function of lines 30-39 and its semantics

    [BtTransport] models [bt_transport_text] directly as a first-match
    lookup.  This file gives the statement the compiler sees after
    preprocessing its abstract syntax (expressions, labelled statements,
    [switch], [return]) and the dynamic semantics of C++ for them:
    [switch] jumps to the statement whose [case] label equals the promoted
    condition, else to [default], else past the body, and control falls
    through labels until a [return] ([stmt.switch], [stmt.return]).
    Flowing off the end of a function that returns a value is undefined
    behaviour, which a call reports as [None].

    [bt_transport_text_def] is the function definition of lines 30-39
    after preprocessing.  The theorem shows that, run under these
    semantics, it computes [bt_transport_text] on every 8-bit value. *)

From stdpp Require Import base list list_relations numbers.
From Stdlib Require Import ZArith String List Lia.
From coqutil Require Import Word.Interface Word.Naive.
From S2P Require Import Prelude StdString CppInt BtTransport Preprocessor.
Import ListNotations.

Open Scope string_scope.
Open Scope list_scope.

(** ** Syntax *)

(** The types met in lines 30-39. *)
Inductive cpp_type :=
| TInt          (* int: integer literals, promoted operands *)
| TUint8        (* uint8_t, the type behind the typedef tBT_TRANSPORT *)
| TCharArray    (* const char[N]: a string literal *)
| TString.      (* std::string *)

#[export] Instance cpp_type_eq_dec : EqDecision cpp_type.
Proof. solve_decision. Defined.

Inductive expr :=
| EVar (x : string)                (* a parameter *)
| EIntLit (z : Z)                  (* an integer literal *)
| EStrLit (s : string)             (* a string literal *)
| EString (e : expr)               (* std::string(e) *)
| EToString (e : expr)             (* std::to_string(e) *)
| EAdd (e1 e2 : expr).             (* e1 + e2 on std::string *)

Inductive stmt :=
| SReturn (e : expr)                      (* return e; *)
| SCase (label : expr) (s : stmt)         (* case label: s *)
| SDefault (s : stmt)                     (* default: s *)
| SSwitch (cond : expr) (body : list stmt). (* switch (cond) { body } *)

(** [inline R name(const P& param) { body }] *)
Record function_def := {
  fn_name : string;
  fn_return : cpp_type;
  fn_param : string;
  fn_param_type : cpp_type;
  fn_body : list stmt
}.

(** ** Values and evaluation *)

Inductive value :=
| VInt (z : Z)             (* an integer, of type int or uint8_t *)
| VCharArray (s : string)  (* the contents of a string literal *)
| VString (s : string).    (* a std::string *)

Section Eval.
Context {its : IntToString}.

(** [std::string] operands: a [std::string], or a string literal
    converted by [std::string(const char* )]. *)
Definition string_operand (v : value) : option string :=
  match v with VString s | VCharArray s => Some s | VInt _ => None end.

Fixpoint eval (rho : string -> option value) (e : expr) : option value :=
  match e with
  | EVar x => rho x
  | EIntLit z => Some (VInt z)
  | EStrLit s => Some (VCharArray s)
  | EString e' =>
      match eval rho e' with
      | Some v => option_map VString (string_operand v)
      | None => None
      end
  | EToString e' =>
      match eval rho e' with
      | Some (VInt z) => Some (VString (int_to_string z))
      | _ => None
      end
  | EAdd e1 e2 =>
      match eval rho e1, eval rho e2 with
      | Some (VString a), Some v2 => option_map (fun b => VString (a <+> b)) (string_operand v2)
      | Some (VCharArray a), Some (VString b) => Some (VString (a <+> b))
      | _, _ => None
      end
  end.
End Eval.

(** ** Statements *)

Inductive label := LCase (e : expr) | LDefault.

(** The labels of a labelled statement, outermost first. *)
Fixpoint stmt_labels (s : stmt) : list label :=
  match s with
  | SCase l s' => LCase l :: stmt_labels s'
  | SDefault s' => LDefault :: stmt_labels s'
  | _ => []
  end.

(** The value of a case label, an integer constant. *)
Definition label_value (e : expr) : option Z :=
  match e with EIntLit z => Some z | _ => None end.

Definition case_values (s : stmt) : list Z :=
  omap (fun l => match l with LCase e => label_value e | LDefault => None end) (stmt_labels s).

Definition has_case (z : Z) (s : stmt) : bool :=
  existsb (Z.eqb z) (case_values s).

Definition has_default (s : stmt) : bool :=
  existsb (fun l => match l with LDefault => true | LCase _ => false end) (stmt_labels s).

Fixpoint find_index (p : stmt -> bool) (l : list stmt) : option nat :=
  match l with
  | [] => None
  | s :: l' => if p s then Some 0%nat else option_map S (find_index p l')
  end.

(** [stmt.switch]/5: control jumps to the statement labelled with the
    condition's value, else to the one labelled [default]; [None] skips
    the body. *)
Definition switch_target (z : Z) (body : list stmt) : option nat :=
  match find_index (has_case z) body with
  | Some i => Some i
  | None => find_index has_default body
  end.

(** How a statement completes: normally, by [return], or not at all
    (an expression without a value: an ill-formed program). *)
Inductive outcome := Normal | Returned (v : value) | Stuck.

(** Run the statements of [l] from the [k]-th on, falling through each
    one that completes normally. *)
Definition run_from (exec : stmt -> outcome) : nat -> list stmt -> outcome :=
  fix run k l :=
    match l with
    | [] => Normal
    | s :: l' =>
        match k with
        | S k' => run k' l'
        | O => match exec s with Normal => run O l' | o => o end
        end
    end.

Section Exec.
Context {its : IntToString}.

Fixpoint exec_stmt (rho : string -> option value) (s : stmt) : outcome :=
  match s with
  | SReturn e => match eval rho e with Some v => Returned v | None => Stuck end
  | SCase _ s' | SDefault s' => exec_stmt rho s'
  | SSwitch c body =>
      match eval rho c with
      | Some (VInt z) =>
          match switch_target z body with
          | Some i => run_from (exec_stmt rho) i body
          | None => Normal
          end
      | _ => Stuck
      end
  end.

Definition bind_param (x : string) (v : value) : string -> option value :=
  fun y => if String.eqb y x then Some v else None.

(** The returned value converted to the return type ([stmt.return]/2):
    [std::string] from a literal, [int -> uint8_t] modulo 2^8. *)
Definition convert_return (t : cpp_type) (v : value) : option value :=
  match t, v with
  | TInt, VInt z => Some (VInt z)
  | TUint8, VInt z => Some (VInt (z mod 256))
  | TString, VCharArray s | TString, VString s => Some (VString s)
  | _, _ => None
  end.

(** A call: the body runs with the parameter bound; flowing off its end
    is undefined behaviour ([None]). *)
Definition call_function (f : function_def) (arg : value) : option value :=
  match run_from (exec_stmt (bind_param (fn_param f) arg)) 0 (fn_body f) with
  | Returned v => convert_return (fn_return f) v
  | _ => None
  end.
End Exec.

(** ** The function of lines 30-39 *)

(** [CASE_RETURN_TEXT(code);] after preprocessing (lines 32-34):
    [case <value>: return "<spelling>";]. *)
Definition case_stmt (c : switch_case) : stmt :=
  SCase (EIntLit (case_label c)) (SReturn (EStrLit (case_text c))).

(** Lines 35-37. *)
Definition default_stmt : stmt :=
  SDefault (SReturn (EAdd (EAdd (EString (EStrLit "UNKNOWN[")) (EToString (EVar "transport")))
                          (EString (EStrLit "]")))).

(** Lines 30-39. *)
Definition bt_transport_text_def : function_def := {|
  fn_name := "bt_transport_text";
  fn_return := TString;
  fn_param := "transport";
  fn_param_type := TUint8;
  fn_body := [SSwitch (EVar "transport") (map case_stmt bt_transport_text_cases ++ [default_stmt])]
|}.

(** ** Fall-through runs *)

Section RunFrom.
Variable exec : stmt -> outcome.

Lemma run_from_cons_O (s : stmt) (l : list stmt) :
  run_from exec 0 (s :: l) = match exec s with Normal => run_from exec 0 l | o => o end.
Proof. reflexivity. Qed.

End RunFrom.

(** A statement with neither a matching [case] nor [default] is jumped
    over. *)
Lemma switch_target_skip (z : Z) (s : stmt) (body : list stmt) :
  has_case z s = false -> has_default s = false ->
  switch_target z (s :: body) = option_map S (switch_target z body).
Proof.
  intros Hc Hd. unfold switch_target. cbn [find_index]. rewrite Hc, Hd.
  destruct (find_index (has_case z) body); reflexivity.
Qed.

Section Calls.
Context {its : IntToString}.

(** ** The switch of [CASE_RETURN_TEXT] cases *)

Lemma case_stmt_has_case (z : Z) (c : switch_case) :
  has_case z (case_stmt c) = (case_label c =? z)%Z.
Proof. unfold has_case, case_values. cbn. now rewrite Bool.orb_false_r, Z.eqb_sym. Qed.

(** Jumping into [case] statements followed by a [default]: the first
    matching case returns its text, else the default runs. *)
Lemma switch_cases_run (rho : string -> option value) (z : Z) (cs : list switch_case) (d : stmt) :
  has_case z d = false -> has_default d = true ->
  match switch_target z (map case_stmt cs ++ [d]) with
  | Some i => run_from (exec_stmt rho) i (map case_stmt cs ++ [d])
  | None => Normal
  end =
  match switch_lookup cs z with
  | Some s => Returned (VCharArray s)
  | None => match exec_stmt rho d with Normal => Normal | o => o end
  end.
Proof.
  intros Hc Hd. induction cs as [|c cs IH]; cbn [map app switch_lookup].
  - unfold switch_target. cbn [find_index]. now rewrite Hc, Hd.
  - destruct (case_label c =? z)%Z eqn:E.
    + unfold switch_target. cbn [find_index]. rewrite case_stmt_has_case, E. reflexivity.
    + rewrite switch_target_skip by (rewrite ?case_stmt_has_case; auto).
      destruct (switch_target z (map case_stmt cs ++ [d])); exact IH.
Qed.
End Calls.

Section Function.
Context {word : word.word 8} {its : IntToString}.

(** The call of lines 30-39 on a promoted transport value. *)
Lemma bt_transport_text_def_call (t : tBT_TRANSPORT) :
  call_function bt_transport_text_def (VInt (promote t)) = Some (VString (bt_transport_text t)).
Proof.
  unfold call_function. cbn [bt_transport_text_def fn_body fn_param fn_return].
  rewrite run_from_cons_O. cbn [exec_stmt eval].
  change (bind_param "transport" (VInt (promote t)) "transport") with (Some (VInt (promote t))).
  cbv beta iota.
  rewrite switch_cases_run by reflexivity.
  unfold bt_transport_text. destruct (switch_lookup bt_transport_text_cases (promote t)); reflexivity.
Qed.
End Function.


(** ** Properties of the function *)

(** C3: the function of lines 30-39, run under the C++ semantics of
    [switch] and [return], computes [bt_transport_text] on every 8-bit
    transport value, for any [std::to_string] meeting [IntToString]. *)
Theorem bt_transport_text_def_computes {word : word.word 8} {its : IntToString}
    (t : tBT_TRANSPORT) :
  call_function bt_transport_text_def (VInt (promote t)) = Some (VString (bt_transport_text t)).
Proof. apply bt_transport_text_def_call. Qed.

