(* ===== verification/CppAlloc.v ===== *)
(** * Allocation and exceptions of [std::string] in lines 30-39

    [CppFunction] runs the function as if [std::string] never failed.  In
    C++ every [std::string] the function builds needs storage for its
    characters: [std::string("UNKNOWN[")] and [std::string("]")] (lines 36
    and 37) and the result of [std::to_string(transport)] (line 36) are new
    strings, as is the [std::string] a [return "<name>"] constructs from
    its literal (line 28, from [CASE_RETURN_TEXT]).  Each [+] of lines
    36-37 has a temporary [std::string] as left operand, so it selects
    [operator+(basic_string&&, ...)] ([string.op.plus]), which appends into
    that operand's buffer: it grows the buffer in place instead of building
    a new string.  Building or growing a string past [max_size()] throws
    [std::length_error]; an allocator that refuses the storage throws
    [std::bad_alloc]; nothing in the function catches, so the exception
    leaves the call.

    The allocator is an interface ([StringAllocator]): its state [H], its
    [max_size()], and its answer to a new string of [n] characters and to
    a string of [m] characters growing to [n].  A small-string buffer, a
    heap with a budget and growth policy, or fault injection are
    instances.  The evaluator threads the allocator state and exceptions
    through a state-and-exception monad [AllocM] (stdpp's [MBind]/[MRet]).
    The two operands of each [+] are evaluated in an unspecified order,
    chosen independently at each [+] ([expr.call]/8 for an overloaded
    operator): [ord] labels every [+] of the program with the order it
    takes, so that all four orders of lines 36-37 are covered.

    The theorems show the exact sequence of requests [bt_transport_text]
    makes under every choice of orders, that with a small-string buffer of
    [c] characters and no heap it throws [std::bad_alloc] exactly for the
    labels longer than [c], and that an allocator that grants every request
    of at most 19 characters never makes it throw. *)

From stdpp Require Import base list numbers.
From Stdlib Require Import ZArith String List Lia.
From coqutil Require Import Word.Interface Word.Naive.
From S2P Require Import Prelude StdString CppInt BtTransport CppFunction.
Import ListNotations.

Open Scope string_scope.
Open Scope list_scope.

(** ** Exceptions, results and the allocator interface *)

Inductive cpp_exn :=
| BadAlloc      (* std::bad_alloc: the allocator refused the storage *)
| LengthError.  (* std::length_error: more than max_size() characters *)

(** A computation ends with a value, an exception in flight, or stuck on
    an ill-formed program (the [None] of [CppFunction]). *)
Inductive res (A : Type) := ROk (a : A) | RThrow (x : cpp_exn) | RStuck.
Arguments ROk {A} a.
Arguments RThrow {A} x.
Arguments RStuck {A}.

(** What [std::string] needs of its allocator. *)
Class StringAllocator (H : Type) := {
  string_max_size : N;
  allocate : nat -> H -> option H;       (* a new string of n characters *)
  grow : nat -> nat -> H -> option H     (* a string of m characters grown to n in place *)
}.

(** ** The state-and-exception monad *)

Definition AllocM (H A : Type) : Type := H -> res A * H.

#[export] Instance AllocM_ret {H} : MRet (AllocM H) := fun A a h => (ROk a, h).
#[export] Instance AllocM_bind {H} : MBind (AllocM H) := fun A B f m h =>
  match m h with
  | (ROk a, h') => f a h'
  | (RThrow x, h') => (RThrow x, h')
  | (RStuck, h') => (RStuck, h')
  end.

Definition stuck {H A} : AllocM H A := fun h => (RStuck, h).

Definition lift_opt {H A} (o : option A) : AllocM H A :=
  match o with Some a => mret a | None => stuck end.

(** The order in which the two operands of a [+] are evaluated. *)
Inductive eval_order := LeftFirst | RightFirst.

Definition operands {H A} (o : eval_order) (m1 m2 : AllocM H A) : AllocM H (A * A) :=
  match o with
  | LeftFirst => v1 ← m1; v2 ← m2; mret (v1, v2)
  | RightFirst => v2 ← m2; v1 ← m1; mret (v1, v2)
  end.

(** The contents of [v1 + v2], as [eval] of [CppFunction] forms them. *)
Definition add_operands (v1 v2 : value) : option string :=
  match v1, v2 with
  | VString a, _ => (fun b => a <+> b) <$> string_operand v2
  | VCharArray a, VString b => Some (a <+> b)
  | _, _ => None
  end.

(** A [std::string] operand is a temporary unless it names a variable. *)
Definition is_rvalue (e : expr) : bool :=
  match e with EVar _ => false | _ => true end.

(** The buffer [e1 + e2] reuses, by the length of the string it holds:
    [operator+(basic_string&&, ...)] appends into a temporary left
    operand; [operator+(const basic_string&, basic_string&&)] and
    [operator+(const char*, basic_string&&)] insert into a temporary right
    operand; otherwise the result is a new string. *)
Definition reused_buffer (e1 e2 : expr) (v1 v2 : value) : option nat :=
  match v1, v2 with
  | VString a, _ => if is_rvalue e1 then Some (String.length a)
                    else match v2 with
                         | VString b => if is_rvalue e2 then Some (String.length b) else None
                         | _ => None
                         end
  | VCharArray _, VString b => if is_rvalue e2 then Some (String.length b) else None
  | _, _ => None
  end.

(** A storage request: a new string of [n] characters, or a string of [m]
    characters grown to [n]. *)
Inductive req := RNew (n : nat) | RGrow (m n : nat).

Definition req_size (r : req) : nat := match r with RNew n | RGrow _ n => n end.

Section Alloc.
Context {H : Type} {alloc : StringAllocator H} {its : IntToString}.

(** A request: [std::length_error] above [max_size()], [std::bad_alloc]
    when the allocator refuses. *)
Definition request (r : req) : AllocM H unit := fun h =>
  if (string_max_size <? N.of_nat (req_size r))%N then (RThrow LengthError, h)
  else match match r with RNew n => allocate n h | RGrow m n => grow m n h end with
       | Some h' => (ROk tt, h')
       | None => (RThrow BadAlloc, h)
       end.

(** A new [std::string] holding [s]. *)
Definition new_string (s : string) : AllocM H string := request (RNew (String.length s));; mret s.

(** The evaluation of an expression; [ord] gives the order each [+]
    evaluates its operands in. *)
Fixpoint eval_a (ord : expr -> eval_order) (rho : string -> option value) (e : expr)
    : AllocM H value :=
  match e with
  | EVar x => lift_opt (rho x)
  | EIntLit z => mret (VInt z)
  | EStrLit s => mret (VCharArray s)
  | EString e' =>
      v ← eval_a ord rho e'; s ← lift_opt (string_operand v);
      s' ← new_string s; mret (VString s')
  | EToString e' =>
      v ← eval_a ord rho e';
      match v with
      | VInt z => s ← new_string (int_to_string z); mret (VString s)
      | _ => stuck
      end
  | EAdd e1 e2 =>
      '(v1, v2) ← operands (ord e) (eval_a ord rho e1) (eval_a ord rho e2);
      s ← lift_opt (add_operands v1 v2);
      request (match reused_buffer e1 e2 v1 v2 with
               | Some m => RGrow m (String.length s)
               | None => RNew (String.length s)
               end);;
      mret (VString s)
  end.

Definition run_from_a (exec : stmt -> AllocM H outcome) : nat -> list stmt -> AllocM H outcome :=
  fix run k l :=
    match l with
    | [] => mret Normal
    | s :: l' =>
        match k with
        | S k' => run k' l'
        | O => oc ← exec s; match oc with Normal => run O l' | _ => mret oc end
        end
    end.

Fixpoint exec_a (ord : expr -> eval_order) (rho : string -> option value) (s : stmt)
    : AllocM H outcome :=
  match s with
  | SReturn e => v ← eval_a ord rho e; mret (Returned v)
  | SCase _ s' | SDefault s' => exec_a ord rho s'
  | SSwitch c body =>
      v ← eval_a ord rho c;
      match v with
      | VInt z =>
          match switch_target z body with
          | Some i => run_from_a (exec_a ord rho) i body
          | None => mret Normal
          end
      | _ => stuck
      end
  end.

(** [return]'s conversion: a literal becomes a new [std::string]; a
    [std::string] is moved. *)
Definition convert_return_a (t : cpp_type) (v : value) : AllocM H value :=
  match t, v with
  | TString, VCharArray s => s' ← new_string s; mret (VString s')
  | _, _ => lift_opt (convert_return t v)
  end.

Definition call_a (ord : expr -> eval_order) (f : function_def) (arg : value) : AllocM H value :=
  oc ← run_from_a (exec_a ord (bind_param (fn_param f) arg)) 0 (fn_body f);
  match oc with
  | Returned v => convert_return_a (fn_return f) v
  | _ => stuck
  end.

(** A sequence of requests. *)
Fixpoint requests (rs : list req) : AllocM H unit :=
  match rs with [] => mret tt | r :: rs' => request r;; requests rs' end.
End Alloc.

(** The two [+] of lines 36-37. *)
Definition unknown_prefix_sum : expr :=
  EAdd (EString (EStrLit "UNKNOWN[")) (EToString (EVar "transport")).
Definition unknown_label_sum : expr := EAdd unknown_prefix_sum (EString (EStrLit "]")).

(** The storage requests of [bt_transport_text] on [t]: the label for a
    named code; else [std::string("UNKNOWN[")] and [std::to_string] in the
    order of the inner [+], the inner [+] growing the first to [8 + d]
    characters, [std::string("]")] before or after all of these by the
    order of the outer [+], and the outer [+] growing the result to
    [9 + d]. *)
Definition bt_requests {word : word.word 8} {its : IntToString}
    (ord : expr -> eval_order) (t : tBT_TRANSPORT) : list req :=
  match switch_lookup bt_transport_text_cases (promote t) with
  | Some s => [RNew (String.length s)]
  | None =>
      let d := String.length (int_to_string (promote t)) in
      let inner := match ord unknown_prefix_sum with
                   | LeftFirst => [RNew 8; RNew d]
                   | RightFirst => [RNew d; RNew 8]
                   end ++ [RGrow 8 (8 + d)] in
      match ord unknown_label_sum with
      | LeftFirst => inner ++ [RNew 1]
      | RightFirst => RNew 1 :: inner
      end ++ [RGrow (8 + d) (9 + d)]
  end%nat.

(** Allocators. *)

(** Only a small-string buffer of [c] characters, no heap. *)
Definition sso_allocator (c : nat) (max : N) : StringAllocator unit := {|
  string_max_size := max;
  allocate n h := if Nat.leb n c then Some h else None;
  grow m n h := if Nat.leb n c then Some h else None
|}.

(** ** The requests of lines 30-39 *)

(** Case analysis on the storage requests of a computation, outermost
    first, after normalising the lengths of concatenations. *)
Ltac request_cases :=
  repeat (rewrite ?str_length_append; cbn [String.length Nat.add]; rewrite ?Nat.add_1_r;
          match goal with
          | |- context [request ?r ?h] => destruct (request r h) as [[[]|?x|] ?h']; cbn
          end).

Section Requests.
Context {H : Type} {alloc : StringAllocator H} {its : IntToString}.

(** The monadic counterpart of [switch_cases_run]. *)
Lemma switch_cases_run_a (ord : expr -> eval_order) (rho : string -> option value) (z : Z)
    (cs : list switch_case) (d : stmt) (h : H) :
  has_case z d = false -> has_default d = true ->
  match switch_target z (map case_stmt cs ++ [d]) with
  | Some i => run_from_a (exec_a ord rho) i (map case_stmt cs ++ [d])
  | None => mret Normal
  end h =
  match switch_lookup cs z with
  | Some s => (ROk (Returned (VCharArray s)), h)
  | None => (oc ← exec_a ord rho d; match oc with Normal => mret Normal | _ => mret oc end) h
  end.
Proof.
  intros Hc Hd. induction cs as [|c cs IH]; cbn [map app switch_lookup].
  - unfold switch_target. cbn [find_index]. now rewrite Hc, Hd.
  - destruct (case_label c =? z)%Z eqn:E.
    + unfold switch_target. cbn [find_index]. rewrite case_stmt_has_case, E. reflexivity.
    + rewrite switch_target_skip by (rewrite ?case_stmt_has_case; auto).
      destruct (switch_target z (map case_stmt cs ++ [d])); exact IH.
Qed.

(** Requests within [max_size()] that the allocator grants from any
    state all succeed. *)
Lemma requests_granted (b : nat) (rs : list req) (h : H) :
  (N.of_nat b <= string_max_size)%N ->
  (forall n h, (n <= b)%nat -> exists h', allocate n h = Some h') ->
  (forall m n h, (n <= b)%nat -> exists h', grow m n h = Some h') ->
  Forall (fun r => req_size r <= b)%nat rs ->
  exists h', requests rs h = (ROk tt, h').
Proof.
  intros Hmax Hnew Hgrow Hrs. revert h; induction Hrs as [|r rs Hr Hrs IH]; intros h;
    [now exists h |].
  cbn [requests]. unfold mbind, AllocM_bind, request.
  replace (string_max_size <? N.of_nat (req_size r))%N with false
    by (symmetry; apply N.ltb_ge; lia).
  destruct r as [n|m n]; cbn [req_size] in Hr;
    [destruct (Hnew n h Hr) as [h1 ->] | destruct (Hgrow m n h Hr) as [h1 ->]]; apply IH.
Qed.
End Requests.

Section BtTransportAlloc.
Context {H : Type} {alloc : StringAllocator H} {word : word.word 8} {its : IntToString}.

(** Lines 30-39 with allocation: the requests of [bt_requests], then the
    label. *)
Lemma bt_transport_text_def_alloc (ord : expr -> eval_order) (t : tBT_TRANSPORT) (h : H) :
  call_a ord bt_transport_text_def (VInt (promote t)) h =
  (requests (bt_requests ord t);; mret (VString (bt_transport_text t))) h.
Proof.
  unfold call_a. cbn [bt_transport_text_def fn_body fn_param fn_return run_from_a exec_a].
  unfold mbind at 1 2, AllocM_bind at 1 2. cbn [eval_a lift_opt].
  change (bind_param "transport" (VInt (promote t)) "transport") with (Some (VInt (promote t))).
  unfold mbind at 1, AllocM_bind at 1. cbn [lift_opt mret AllocM_ret].
  rewrite switch_cases_run_a by reflexivity.
  unfold bt_requests, bt_transport_text.
  destruct (switch_lookup bt_transport_text_cases (promote t)) as [s|].
  - cbn. unfold new_string, mbind, AllocM_bind, mret, AllocM_ret.
    destruct (request _ h) as [[[]|x|] h1]; reflexivity.
  - unfold default_stmt, unknown_label_sum, unknown_prefix_sum. cbn [exec_a eval_a].
    destruct (ord (EAdd (EAdd (EString (EStrLit "UNKNOWN[")) (EToString (EVar "transport")))
                        (EString (EStrLit "]")))),
             (ord (EAdd (EString (EStrLit "UNKNOWN[")) (EToString (EVar "transport"))));
      cbn [operands lift_opt add_operands string_operand requests reused_buffer is_rvalue app];
      unfold new_string, mbind, AllocM_bind, mret, AllocM_ret, lift_opt; cbn;
      request_cases; reflexivity.
Qed.
End BtTransportAlloc.

(** ** Small-string buffers *)

Lemma requests_sso (c : nat) (max : N) (rs : list req) :
  Forall (fun r => N.of_nat (req_size r) <= max)%N rs ->
  fst (requests (alloc := sso_allocator c max) rs tt) =
  if forallb (fun r => req_size r <=? c)%nat rs then ROk tt else RThrow BadAlloc.
Proof.
  induction 1 as [|r rs Hr Hrs IH]; [reflexivity |].
  cbn [requests forallb]. unfold mbind, AllocM_bind, request.
  cbn [string_max_size allocate grow sso_allocator].
  replace (max <? N.of_nat (req_size r))%N with false by (symmetry; apply N.ltb_ge; lia).
  destruct r as [n|m n]; cbn [req_size]; (destruct (n <=? c)%nat; [exact IH | reflexivity]).
Qed.

(** A list whose sizes are bounded by one of them passes a threshold on
    sizes exactly when that size does. *)
Lemma forallb_le_max {A} (size : A -> nat) (l c : nat) (xs : list A) :
  Forall (fun x => size x <= l)%nat xs -> In l (map size xs) ->
  forallb (fun x => size x <=? c)%nat xs = (l <=? c)%nat.
Proof.
  intros Hle Hin. apply in_map_iff in Hin as (x0 & <- & Hx0).
  apply Bool.eq_true_iff_eq. rewrite forallb_forall, Nat.leb_le.
  split; [intros Hall; apply Nat.leb_le, Hall, Hx0 |].
  intros Hl x Hx. apply Nat.leb_le. rewrite Forall_forall in Hle. specialize (Hle x Hx). lia.
Qed.

(** A bound on each element of an explicit list of requests. *)
Ltac forall_list_lia :=
  apply Forall_forall; let Hin := fresh "Hin" in intros ? Hin; cbn in Hin;
  repeat (destruct Hin as [<- | Hin]; [cbn [req_size]; lia |]); contradiction.

Section BtRequests.
Context {word : word.word 8}.

(** Every request is for at most the label's length, and the last one is
    for the label itself. *)
Lemma bt_requests_label {its : IntToString} (ord : expr -> eval_order) (t : tBT_TRANSPORT) :
  Forall (fun r => req_size r <= String.length (bt_transport_text t))%nat (bt_requests ord t) /\
  In (String.length (bt_transport_text t)) (map req_size (bt_requests ord t)).
Proof.
  unfold bt_requests, bt_transport_text.
  destruct (switch_lookup bt_transport_text_cases (promote t));
    [split; [forall_list_lia | now left] |].
  str_simpl. rewrite Nat.add_1_r.
  destruct (ord unknown_label_sum), (ord unknown_prefix_sum); cbn [app];
    (split; [forall_list_lia | cbn [map req_size In]; tauto]).
Qed.

(** With [std::to_string], no request exceeds 19 characters. *)
Lemma bt_requests_le_19 {word_ok : word.ok word} (ord : expr -> eval_order) (t : tBT_TRANSPORT) :
  Forall (fun r => req_size r <= 19)%nat (bt_requests (its := std_to_string) ord t).
Proof.
  pose proof (promote_range t) as Hr.
  unfold bt_requests. rewrite bt_transport_text_cases_lookup.
  destruct_transport (promote t); [forall_list_lia.. |].
  change (@int_to_string std_to_string (promote t)) with (to_string (promote t)).
  pose proof (to_string_length_bound (promote t) Hr).
  destruct (ord unknown_label_sum), (ord unknown_prefix_sum); cbn [app]; forall_list_lia.
Qed.
End BtRequests.

(** ** Properties *)

(** C15: with only a small-string buffer of [c] characters and no heap
    (and [max_size()] of at least 19), the function throws
    [std::bad_alloc] exactly for the transports whose label is longer
    than [c], whatever order each [+] evaluates its operands in: no string
    the [default] branch builds or grows is longer than the label. *)
Theorem bt_transport_text_sso_bad_alloc {word : word.word 8} {word_ok : word.ok word}
    (c : nat) (max : N) (ord : expr -> eval_order) (t : tBT_TRANSPORT) :
  (19 <= max)%N ->
  fst (call_a (alloc := sso_allocator c max) (its := std_to_string) ord bt_transport_text_def
         (VInt (promote t)) tt) =
  if (String.length (bt_transport_text t) <=? c)%nat
  then ROk (VString (bt_transport_text t)) else RThrow BadAlloc.
Proof.
  intros Hmax. rewrite bt_transport_text_def_alloc. unfold mbind at 1, AllocM_bind at 1.
  assert (Hreq := requests_sso c max (bt_requests ord t)).
  destruct (bt_requests_label ord t) as [Hle Hin].
  rewrite (forallb_le_max req_size _ c _ Hle Hin) in Hreq.
  destruct (requests (alloc := sso_allocator c max) (bt_requests ord t) tt) as [r h'].
  cbn [fst] in Hreq |- *. rewrite Hreq; [now destruct (_ <=? c)%nat |].
  pose proof (bt_requests_le_19 ord t) as H19. rewrite Forall_forall in H19 |- *.
  intros x Hx. specialize (H19 x Hx). lia.
Qed.

(** C16: an allocator whose [max_size()] is at least 19 and which grants
    every request of at most 19 characters (a new string or a string
    grown in place), whatever its state, never makes the function throw:
    the call returns the label of [bt_transport_text], whatever order each
    [+] evaluates its operands in. *)
Theorem bt_transport_text_no_throw {H : Type} {alloc : StringAllocator H}
    {word : word.word 8} {word_ok : word.ok word}
    (ord : expr -> eval_order) (t : tBT_TRANSPORT) (h : H) :
  (19 <= string_max_size)%N ->
  (forall n h', (n <= 19)%nat -> exists h'', allocate n h' = Some h'') ->
  (forall m n h', (n <= 19)%nat -> exists h'', grow m n h' = Some h'') ->
  fst (call_a (its := std_to_string) ord bt_transport_text_def (VInt (promote t)) h) =
  ROk (VString (bt_transport_text t)).
Proof.
  intros Hmax Hnew Hgrow. rewrite bt_transport_text_def_alloc.
  destruct (requests_granted 19 (bt_requests ord t) h Hmax Hnew Hgrow (bt_requests_le_19 ord t))
    as [h' Hr].
  unfold mbind, AllocM_bind. now rewrite Hr.
Qed.

(** C17: with any allocator and any order of evaluation at each [+], the
    function of lines 30-39 makes exactly the storage requests
    [bt_requests] and then returns the label of [bt_transport_text]: for a
    named code the [std::string] of the returned literal; for the
    [default] branch the new strings [std::string("UNKNOWN[")] (8
    characters) and [std::to_string(transport)] ([d] characters) in the
    order of the inner [+], which appends the second into the first
    (growing it to [8 + d]), the new string [std::string("]")] before or
    after these by the order of the outer [+], which appends it (growing
    the result to [9 + d]).  The first refused request is the exception
    the call throws. *)
Theorem bt_transport_text_alloc_requests {H : Type} {alloc : StringAllocator H}
    {word : word.word 8} {its : IntToString}
    (ord : expr -> eval_order) (t : tBT_TRANSPORT) (h : H) :
  call_a ord bt_transport_text_def (VInt (promote t)) h =
  (requests (bt_requests ord t);; mret (VString (bt_transport_text t))) h.
Proof. apply bt_transport_text_def_alloc. Qed.

(** ** Witnesses *)

(** A 10-character small-string buffer: [UNKNOWN[255]] throws. *)
Lemma bt_transport_text_sso_bad_alloc_witness :
  (19 <= 2 ^ 32)%N /\
  fst (call_a (alloc := sso_allocator 10 (2 ^ 32)) (its := std_to_string) (fun _ => LeftFirst)
         bt_transport_text_def (VInt (promote (word.of_Z 255 : Naive.word8))) tt) =
  if (String.length (bt_transport_text (word.of_Z 255 : Naive.word8)) <=? 10)%nat
  then ROk (VString (bt_transport_text (word.of_Z 255 : Naive.word8))) else RThrow BadAlloc.
Proof.
  split; [vm_compute; discriminate |].
  apply bt_transport_text_sso_bad_alloc; vm_compute; discriminate.
Defined.

(** A 22-character small-string buffer grants every request. *)
Lemma bt_transport_text_no_throw_witness :
  fst (call_a (alloc := sso_allocator 22 (2 ^ 32)) (its := std_to_string) (fun _ => RightFirst)
         bt_transport_text_def (VInt (promote (word.of_Z 255 : Naive.word8))) tt) =
  ROk (VString (bt_transport_text (word.of_Z 255 : Naive.word8))).
Proof.
  apply (bt_transport_text_no_throw (alloc := sso_allocator 22 (2 ^ 32))).
  - vm_compute; discriminate.
  - intros n h' Hn. exists h'. cbn. now replace (n <=? 22)%nat with true
      by (symmetry; apply Nat.leb_le; lia).
  - intros m n h' Hn. exists h'. cbn. now replace (n <=? 22)%nat with true
      by (symmetry; apply Nat.leb_le; lia).
Defined.
