(* ===== verification/CppParse.v ===== *)
(** * Reading the preprocessed header back as C++ declarations

    [Preprocessor] and [Expansion] produce the header's tokens;
    [CppFunction] gives the meaning of a C++ function.  Between them sits
    the compiler's parser.  This file gives a recursive-descent parser for
    the declarations the header produces: [typedef] of an integer type,
    and an [inline] function returning [std::string] whose body is made of
    [switch], [case], [default] and [return] statements over string and
    integer expressions ([+] associating to the left).  It runs with fuel,
    one unit per nested call.

    The theorems compose the whole chain: in any includer that avoids the
    header's identifiers, the tokens the header appends parse to the
    typedef of line 24 and a function that, run under the semantics of
    [CppFunction], computes [bt_transport_text]
    ([bt_transport_h_compiles_to_spec]). *)

From stdpp Require Import base list numbers gmap strings.
From Stdlib Require Import ZArith String List Lia.
From coqutil Require Import Word.Interface Word.Naive.
From S2P Require Import Prelude StdString CppInt BtTransport Preprocessor Expansion CppFunction.
Import ListNotations.

Open Scope string_scope.
Open Scope list_scope.

(** ** The parser *)

(** The punctuator [p] next, consumed. *)
Definition expect (p : string) (toks : list pp_token) : option (list pp_token) :=
  match toks with
  | t :: rest => if is_punct p t then Some rest else None
  | [] => None
  end.

(** The identifier [n] next, consumed. *)
Definition expect_ident (n : string) (toks : list pp_token) : option (list pp_token) :=
  match toks with
  | PIdent m :: rest => if String.eqb m n then Some rest else None
  | _ => None
  end.

(** Expressions: [primary ( + primary )*], where a primary is a
    literal, a variable, [std::string(e)] or [std::to_string(e)]. *)
Fixpoint parse_expr (fuel : nat) (toks : list pp_token) : option (expr * list pp_token) :=
  match fuel with
  | O => None
  | S f => '(e, rest) ← parse_primary f toks; parse_add_tail f e rest
  end
with parse_primary (fuel : nat) (toks : list pp_token) : option (expr * list pp_token) :=
  match fuel with
  | O => None
  | S f =>
      match toks with
      | PIdent x :: rest =>
          if String.eqb x "std" then
            match rest with
            | PPunct c :: PIdent fn :: rest1 =>
                if String.eqb c "::" then
                  rest2 ← expect "(" rest1;
                  '(e, rest3) ← parse_expr f rest2;
                  rest4 ← expect ")" rest3;
                  if String.eqb fn "string" then Some (EString e, rest4)
                  else if String.eqb fn "to_string" then Some (EToString e, rest4)
                  else None
                else None
            | _ => None
            end
          else Some (EVar x, rest)
      | PNumber z :: rest => Some (EIntLit z, rest)
      | PString s :: rest => Some (EStrLit s, rest)
      | _ => None
      end
  end
with parse_add_tail (fuel : nat) (acc : expr) (toks : list pp_token)
    : option (expr * list pp_token) :=
  match fuel with
  | O => None
  | S f =>
      match toks with
      | t :: rest =>
          if is_punct "+" t then '(e, rest') ← parse_primary f rest; parse_add_tail f (EAdd acc e) rest'
          else Some (acc, toks)
      | [] => Some (acc, [])
      end
  end.

(** Statements, and statement sequences up to a closing brace. *)
Fixpoint parse_stmt (fuel : nat) (toks : list pp_token) : option (stmt * list pp_token) :=
  match fuel with
  | O => None
  | S f =>
      match toks with
      | PIdent kw :: rest =>
          if String.eqb kw "return" then
            '(e, r) ← parse_expr f rest; r' ← expect ";" r; Some (SReturn e, r')
          else if String.eqb kw "case" then
            '(l, r) ← parse_expr f rest; r' ← expect ":" r;
            '(s, r'') ← parse_stmt f r'; Some (SCase l s, r'')
          else if String.eqb kw "default" then
            r ← expect ":" rest; '(s, r') ← parse_stmt f r; Some (SDefault s, r')
          else if String.eqb kw "switch" then
            r ← expect "(" rest; '(c, r1) ← parse_expr f r; r2 ← expect ")" r1;
            r3 ← expect "{" r2; '(body, r4) ← parse_stmts f r3; r5 ← expect "}" r4;
            Some (SSwitch c body, r5)
          else None
      | _ => None
      end
  end
with parse_stmts (fuel : nat) (toks : list pp_token) : option (list stmt * list pp_token) :=
  match fuel with
  | O => None
  | S f =>
      match toks with
      | t :: _ =>
          if is_punct "}" t then Some ([], toks)
          else '(s, r) ← parse_stmt f toks; '(ss, r') ← parse_stmts f r; Some (s :: ss, r')
      | [] => Some ([], [])
      end
  end.

(** ** Declarations *)

Inductive decl :=
| DTypedef (name : string) (t : cpp_type)   (* typedef T name; *)
| DFunction (f : function_def).             (* a function definition *)

(** The built-in integer types, then the typedefs seen so far. *)
Definition resolve_type (typedefs : list (string * cpp_type)) (n : string) : option cpp_type :=
  if String.eqb n "uint8_t" then Some TUint8
  else if String.eqb n "int" then Some TInt
  else option_map snd (find (fun p => String.eqb (fst p) n) typedefs).

(** [std::string name(const T& param) { body }], after [inline]. *)
Definition parse_function (fuel : nat) (typedefs : list (string * cpp_type))
    (toks : list pp_token) : option (function_def * list pp_token) :=
  r ← expect_ident "std" toks; r ← expect "::" r; r ← expect_ident "string" r;
  match r with
  | PIdent name :: r =>
      r ← expect "(" r; r ← expect_ident "const" r;
      match r with
      | PIdent tn :: r =>
          pt ← resolve_type typedefs tn; r ← expect "&" r;
          match r with
          | PIdent param :: r =>
              r ← expect ")" r; r ← expect "{" r;
              '(body, r) ← parse_stmts fuel r; r ← expect "}" r;
              Some ({| fn_name := name; fn_return := TString; fn_param := param;
                       fn_param_type := pt; fn_body := body |}, r)
          | _ => None
          end
      | _ => None
      end
  | _ => None
  end.

(** A translation unit: typedefs and inline functions. *)
Fixpoint parse_decls (fuel : nat) (typedefs : list (string * cpp_type)) (toks : list pp_token)
    : option (list decl) :=
  match fuel with
  | O => None
  | S f =>
      match toks with
      | [] => Some []
      | PIdent kw :: rest =>
          if String.eqb kw "typedef" then
            match rest with
            | PIdent tn :: PIdent n :: r =>
                t ← resolve_type typedefs tn; r ← expect ";" r;
                ds ← parse_decls f ((n, t) :: typedefs) r; Some (DTypedef n t :: ds)
            | _ => None
            end
          else if String.eqb kw "inline" then
            '(fd, r) ← parse_function f typedefs rest; ds ← parse_decls f typedefs r;
            Some (DFunction fd :: ds)
          else None
      | _ => None
      end
  end.

(** Fuel for a token list: every nested call consumes a token or is
    followed by one that does. *)
Definition parse_unit (toks : list pp_token) : option (list decl) :=
  parse_decls (S (2 * length toks)) [] toks.

(** ** The header, compiled *)

(** C2: the chain preprocessor, parser, C++ semantics: an includer whose
    macros avoid the header's identifiers, given enough expansion fuel,
    includes the header; the tokens appended to its output parse to the
    typedef of line 24 and a function which, called on any 8-bit
    transport value, returns [bt_transport_text] of it. *)
Theorem bt_transport_h_compiles_to_spec {word : word.word 8} {its : IntToString}
    (fuel : nat) (st : pp_state) :
  (bt_transport_h_file ∉ pp_once st) ->
  Forall (fun n => pp_macros st !! n = None) bt_transport_h_idents ->
  (bt_transport_h_fuel <= fuel)%nat ->
  exists st' out f,
    pp_include fuel bt_transport_h_file bt_transport_h st = inr st' /\
    pp_output st' = pp_output st ++ out /\
    parse_unit out = Some [DTypedef "tBT_TRANSPORT" TUint8; DFunction f] /\
    forall t : tBT_TRANSPORT,
      call_function f (VInt (promote t)) = Some (VString (bt_transport_text t)).
Proof.
  intros Hn Hav Hf.
  eexists _, bt_transport_h_output, bt_transport_text_def.
  split; [exact (include_any fuel st Hn Hav Hf) |].
  split; [reflexivity |]. split; [vm_compute; reflexivity |].
  exact bt_transport_text_def_call.
Qed.

(** ** Witness *)

Lemma bt_transport_h_compiles_to_spec_witness :
  exists st' out f,
    pp_include 65 bt_transport_h_file bt_transport_h includer_with_log_tag = inr st' /\
    pp_output st' = pp_output includer_with_log_tag ++ out /\
    parse_unit out = Some [DTypedef "tBT_TRANSPORT" TUint8; DFunction f] /\
    forall t : Naive.word8,
      call_function (its := std_to_string) f (VInt (promote t)) =
      Some (VString (bt_transport_text (its := std_to_string) t)).
Proof.
  apply (bt_transport_h_compiles_to_spec 65 includer_with_log_tag);
    [by_decide | by_decide | unfold bt_transport_h_fuel; lia].
Defined.

